(** * scr: the tape-script parser and the action executor

    A shallow embedding of
    - package [script]: [internal/script/parser.go] (lexer, parser, [Parse])
      and the [Action] struct,
    - package [input]: [internal/input/keypress.go] ([KeyToKeyCode] and its
      tables),
    - package [capture]: the methods of [Capturer] that execute a script
      ([sendKeypress], [executeActions] and the four per-kind executors),
    followed by the properties of these functions.

    Conventions.  A Go [string] is a Rocq [string], one [ascii] per byte.
    A Go [int] position is a [nat]; [time.Duration] (nanoseconds) and the
    [Repeat] count are [Z].  A Go function returning [(T, error)] returns a
    pair whose second component is [None] for a nil error; a method that
    mutates its receiver returns the new receiver next to its result.  Every
    [for] loop of the lexer is bounded by the length of the input; the bound is
    explicit (a fuel argument computed from the state) and shown sufficient
    below. *)

From Stdlib Require Import ZArith Ascii String DecimalString.
From stdpp Require Import base decidable option list strings gmap.

Local Open Scope string_scope.

(** ** The part of Go's runtime the program relies on *)

(** The two library functions whose behaviour on bytes [>= 0x80] depends on
    the Unicode tables of Go's runtime are not part of this repository; their
    non-ASCII paths are taken as parameters, so every result below holds for
    whatever these paths compute. *)
Class GoUnicode := {
  (** [strings.Map(unicode.ToLower, s)], the path [strings.ToLower] takes
      when [s] holds a byte [>= utf8.RuneSelf]. *)
  mapToLower : string -> string;
  (** [strconv.Quote s] for an [s] holding a byte [>= utf8.RuneSelf]. *)
  quoteNonASCII : string -> string
}.

(** An instance for closed examples, all of which are ASCII and never reach
    these paths. *)
Definition asciiOnly : GoUnicode :=
  {| mapToLower := fun s => s; quoteNonASCII := fun s => s |}.

Definition byte (c : ascii) : nat := nat_of_ascii c.

Definition str (c : ascii) : string := String c EmptyString.

Definition inRange (lo hi : nat) (c : ascii) : bool :=
  (lo <=? byte c)%nat && (byte c <=? hi)%nat.

Definition isASCII (s : string) : bool :=
  forallb (fun c => (byte c <? 128)%nat) (list_ascii_of_string s).

Definition lowerByte (c : ascii) : ascii :=
  if inRange 65 90 c then ascii_of_nat (byte c + 32) else c.

Fixpoint lowerBytes (s : string) : string :=
  match s with
  | EmptyString => EmptyString
  | String c s' => String (lowerByte c) (lowerBytes s')
  end.

(** [strings.ToLower]. *)
Definition ToLower `{GoUnicode} (s : string) : string :=
  if isASCII s then lowerBytes s else mapToLower s.

(** [strings.HasPrefix]. *)
Definition HasPrefix (s pre : string) : bool := String.prefix pre s.

(** [s[n:]]; the callers below only slice within bounds. *)
Fixpoint sliceFrom (n : nat) (s : string) : string :=
  match n, s with
  | O, _ => s
  | S n', String _ s' => sliceFrom n' s'
  | S _, EmptyString => EmptyString
  end.

(** [s[i]] for [i < len(s)]. *)
Definition byteAt (s : string) (i : nat) : ascii :=
  match String.get i s with Some c => c | None => zero end.

(** [unicode.IsDigit(rune(ch))] on a byte: the Latin-1 range has no decimal
    digit besides ['0'..'9']. *)
Definition isDigit (c : ascii) : bool := inRange 48 57 c.

(** [unicode.IsLetter(rune(ch)) || ch == '_'] on a byte: [rune(ch)] is a
    Latin-1 code point, whose letters are A-Z, a-z, U+00AA, U+00B5, U+00BA,
    U+00C0-U+00D6, U+00D8-U+00F6 and U+00F8-U+00FF. *)
Definition isLetter (c : ascii) : bool :=
  inRange 65 90 c || inRange 97 122 c
  || inRange 170 170 c || inRange 181 181 c || inRange 186 186 c
  || inRange 192 214 c || inRange 216 246 c || inRange 248 255 c
  || bool_decide (c = "_"%char).

(** The decimal value of a run of digits, most significant first. *)
Fixpoint digitsValue (acc : Z) (s : string) : option Z :=
  match s with
  | EmptyString => Some acc
  | String c s' =>
      if isDigit c then digitsValue (10 * acc + Z.of_nat (byte c - 48)) s'
      else None
  end.

Definition maxInt64 : Z := 2 ^ 63 - 1.
Definition minInt64 : Z := - 2 ^ 63.

(** [strconv.Atoi] on a 64-bit platform: an optional sign, then one or more
    decimal digits, the value within the range of [int]; [None] stands for
    its syntax and range errors. *)
Definition Atoi (s : string) : option Z :=
  let '(neg, body) :=
    match s with
    | String "-"%char r => (true, r)
    | String "+"%char r => (false, r)
    | _ => (false, s)
    end in
  match body with
  | EmptyString => None
  | _ =>
      match digitsValue 0 body with
      | None => None
      | Some v =>
          let n := if neg : bool then (- v)%Z else v in
          if bool_decide (minInt64 <= n <= maxInt64)%Z then Some n else None
      end
  end.


Definition hexDigit (n : nat) : ascii :=
  if (n <? 10)%nat then ascii_of_nat (48 + n) else ascii_of_nat (87 + n).

(** The double-quote and backslash bytes. *)
Definition dquote : ascii := ascii_of_nat 34.
Definition backslash : ascii := ascii_of_nat 92.

(** One byte of an ASCII string under [strconv.Quote]. *)
Definition quoteByte (c : ascii) : string :=
  if bool_decide (c = dquote) then String backslash (str dquote)
  else if bool_decide (c = backslash) then String backslash (str backslash)
  else if inRange 32 126 c then str c
  else if bool_decide (byte c = 7) then String backslash "a"
  else if bool_decide (byte c = 8) then String backslash "b"
  else if bool_decide (byte c = 12) then String backslash "f"
  else if bool_decide (byte c = 10) then String backslash "n"
  else if bool_decide (byte c = 13) then String backslash "r"
  else if bool_decide (byte c = 9) then String backslash "t"
  else if bool_decide (byte c = 11) then String backslash "v"
  else String backslash
         (String "x" (String (hexDigit (byte c / 16))
                        (str (hexDigit (byte c mod 16))))).

Fixpoint quoteBytes (s : string) : string :=
  match s with
  | EmptyString => EmptyString
  | String c s' => quoteByte c +:+ quoteBytes s'
  end.

(** [%q] of [fmt.Sprintf], that is [strconv.Quote]. *)
Definition Quote `{GoUnicode} (s : string) : string :=
  if isASCII s then String dquote (quoteBytes s +:+ str dquote)
  else quoteNonASCII s.

(** *** [time.ParseDuration]

    Go's [time.ParseDuration], written out for the durations without a
    fraction: an optional sign, then one or more groups of decimal digits
    followed by a unit.  The fraction branch works in [float64] and is left
    out (such a string is refused here); the literals the lexer hands over
    hold no ['.'], see [readNumberOrDuration_literal].  [None] stands for a
    non-nil error. *)

Definition pow63 : Z := 2 ^ 63.

(** [leadingInt]: the leading digits of [s] as a [uint64], and the rest;
    [None] is [errLeadingInt]. *)
Fixpoint leadingInt (x : Z) (s : string) : option (Z * string) :=
  match s with
  | String c s' =>
      if isDigit c then
        if (pow63 / 10 <? x)%Z then None
        else
          let x' := (x * 10 + Z.of_nat (byte c - 48))%Z in
          if (pow63 <? x')%Z then None else leadingInt x' s'
      else Some (x, s)
  | EmptyString => Some (x, s)
  end.

(** The unit of a group: the bytes up to the next ['.'] or digit. *)
Fixpoint splitUnit (s : string) : string * string :=
  match s with
  | String c s' =>
      if bool_decide (c = "."%char) || isDigit c then (EmptyString, s)
      else let '(u, r) := splitUnit s' in (String c u, r)
  | EmptyString => (EmptyString, EmptyString)
  end.

Definition microSign : string :=
  String (ascii_of_nat 194) (String (ascii_of_nat 181) "s").
Definition greekMu : string :=
  String (ascii_of_nat 206) (String (ascii_of_nat 188) "s").

Definition Nanosecond : Z := 1.
Definition Microsecond : Z := 1000 * Nanosecond.
Definition Millisecond : Z := 1000 * Microsecond.
Definition Second : Z := 1000 * Millisecond.
Definition Minute : Z := 60 * Second.
Definition Hour : Z := 60 * Minute.

Definition unitMap : gmap string Z :=
  list_to_map
    [("ns", Nanosecond); ("us", Microsecond); (microSign, Microsecond);
     (greekMu, Microsecond); ("ms", Millisecond); ("s", Second);
     ("m", Minute); ("h", Hour)].

(** [s != "" && s[0] == c]. *)
Definition startsWith (c : ascii) (s : string) : bool :=
  match s with
  | String c' _ => bool_decide (c' = c)
  | EmptyString => false
  end.

(** The loop [for s != ""] of [time.ParseDuration]: every round consumes at
    least the unit's first byte, so [String.length s] rounds are enough. *)
Fixpoint durationGroups (fuel : nat) (d : Z) (s : string) : option Z :=
  match s with
  | EmptyString => Some d
  | String c _ =>
      match fuel with
      | O => None
      | S fuel' =>
          if negb (bool_decide (c = "."%char) || isDigit c) then None
          else
            match leadingInt 0 s with
            | None => None
            | Some (v, s1) =>
                if startsWith "." s1 then None
                else
                  let '(u, s2) := splitUnit s1 in
                  if bool_decide (u = "") then None
                  else
                    match unitMap !! u with
                    | None => None
                    | Some unit =>
                        if (pow63 / unit <? v)%Z then None
                        else
                          let d' := (d + v * unit)%Z in
                          if (pow63 <? d')%Z then None
                          else durationGroups fuel' d' s2
                    end
            end
      end
  end.

Definition ParseDuration (s : string) : option Z :=
  let '(neg, s) :=
    match s with
    | String "-"%char r => (true, r)
    | String "+"%char r => (false, r)
    | _ => (false, s)
    end in
  if bool_decide (s = "0") then Some 0%Z
  else if bool_decide (s = "") then None
  else
    match durationGroups (String.length s) 0 s with
    | None => None
    | Some d =>
        if neg : bool then Some (- d)%Z
        else if (pow63 - 1 <? d)%Z then None
        else Some d
    end.

(** ** Package [script]: the [Action] struct *)

Inductive ActionKind := ActionType | ActionSleep | ActionKey | ActionCtrl.

#[global] Instance ActionKind_eq_dec : EqDecision ActionKind.
Proof. solve_decision. Defined.

Record Action := mkAction {
  Kind : ActionKind;
  Text : string;
  Key : string;
  Duration : Z;
  Speed : Z;
  Delay : Z;
  Repeat : Z
}.

(** The zero value [Action{}]; [ActionType] is the [iota] zero. *)
Definition zeroAction : Action := mkAction ActionType "" "" 0 0 0 0.

(** ** [internal/script/parser.go]: the lexer *)

Inductive tokenKind :=
  | tokenEOF | tokenIdent | tokenString | tokenNumber | tokenDuration
  | tokenAt | tokenPlus.

#[global] Instance tokenKind_eq_dec : EqDecision tokenKind.
Proof. solve_decision. Defined.

(** The field [position] of [token] is [tposition] here; [position] names
    the field of [lexer]. *)
Record token := mkToken {
  kind : tokenKind;
  literal : string;
  tposition : nat
}.

(** The zero value [token{}]. *)
Definition zeroToken : token := mkToken tokenEOF "" 0.

Record lexer := mkLexer {
  input : string;
  position : nat;
  readPos : nat;
  ch : ascii
}.

Definition readChar (l : lexer) : lexer :=
  {| input := input l;
     ch := if (String.length (input l) <=? readPos l)%nat then zero
           else byteAt (input l) (readPos l);
     position := readPos l;
     readPos := S (readPos l) |}.

Definition newLexer (script : string) : lexer :=
  readChar {| input := script; position := 0; readPos := 0; ch := zero |}.

Definition peekChar (l : lexer) : ascii :=
  if (String.length (input l) <=? readPos l)%nat then zero
  else byteAt (input l) (readPos l).

(** The number of [readChar] calls after which [ch] is NUL for good. *)
Definition lexFuel (l : lexer) : nat := S (String.length (input l) - readPos l).

(** The lexer's four scanning loops have one shape,
    [for cond(l.ch) { sb.WriteByte(l.ch); l.readChar() }]
    ([skipWhitespace] has no builder and drops the bytes). *)
Fixpoint scanWhile (cond : ascii -> bool) (fuel : nat) (sb : string)
    (l : lexer) : string * lexer :=
  if cond (ch l) then
    match fuel with
    | O => (sb, l)
    | S fuel' => scanWhile cond fuel' (sb +:+ str (ch l)) (readChar l)
    end
  else (sb, l).

Definition isWhitespace (c : ascii) : bool :=
  bool_decide (c = " "%char) || bool_decide (byte c = 9)
  || bool_decide (byte c = 10) || bool_decide (byte c = 13).

Definition skipWhitespace (l : lexer) : lexer :=
  snd (scanWhile isWhitespace (lexFuel l) "" l).

Definition readString (quote : ascii) (l : lexer) : token * lexer :=
  let pos := position l in
  let l := readChar l in
  let '(sb, l) :=
    scanWhile (fun c => negb (bool_decide (c = quote))
                        && negb (bool_decide (c = zero)))
      (lexFuel l) "" l in
  let l := readChar l in
  (mkToken tokenString sb pos, l).

Definition readNumberOrDuration (l : lexer) : token * lexer :=
  let pos := position l in
  let '(sb, l) := scanWhile isDigit (lexFuel l) "" l in
  let numStr := sb in
  if bool_decide (ch l = "m"%char) && bool_decide (peekChar l = "s"%char) then
    let sb := sb +:+ str (ch l) in
    let l := readChar l in
    let sb := sb +:+ str (ch l) in
    let l := readChar l in
    (mkToken tokenDuration sb pos, l)
  else if bool_decide (ch l = "s"%char) then
    let sb := sb +:+ str (ch l) in
    let l := readChar l in
    (mkToken tokenDuration sb pos, l)
  else (mkToken tokenNumber numStr pos, l).

Definition readIdent (l : lexer) : token * lexer :=
  let pos := position l in
  let '(sb, l) :=
    scanWhile (fun c => isLetter c || isDigit c || bool_decide (c = "+"%char))
      (lexFuel l) "" l in
  (mkToken tokenIdent sb pos, l).

Definition squote : ascii := ascii_of_nat 39.

(** [lexer.nextToken]; the fuel bounds the chain of recursive calls made for
    skipped bytes, each of which follows a [readChar]. *)
Fixpoint nextTokenFrom (fuel : nat) (l : lexer) : token * lexer :=
  let l := skipWhitespace l in
  let pos := position l in
  if bool_decide (ch l = "@"%char) then (mkToken tokenAt "@" pos, readChar l)
  else if bool_decide (ch l = "+"%char) then
    (mkToken tokenPlus "+" pos, readChar l)
  else if bool_decide (ch l = squote) then readString squote l
  else if bool_decide (ch l = dquote) then readString dquote l
  else if bool_decide (ch l = zero) then (mkToken tokenEOF "" pos, l)
  else if isDigit (ch l) then readNumberOrDuration l
  else if isLetter (ch l) then readIdent l
  else
    match fuel with
    | O => (mkToken tokenEOF "" pos, l)
    | S fuel' => nextTokenFrom fuel' (readChar l)
    end.

(** The method [nextToken] of [lexer]; [parser_nextToken] below is the one
    of [parser]. *)
Definition lexer_nextToken (l : lexer) : token * lexer :=
  nextTokenFrom (S (lexFuel l)) l.

(** ** [internal/script/parser.go]: the parser *)

Record parser := mkParser {
  l : lexer;
  curToken : token;
  peekToken : token
}.

Definition parser_nextToken (p : parser) : parser :=
  let '(tok, l') := lexer_nextToken (l p) in
  {| l := l'; curToken := peekToken p; peekToken := tok |}.

Definition newParser (l : lexer) : parser :=
  let p := {| l := l; curToken := zeroToken; peekToken := zeroToken |} in
  let p := parser_nextToken p in
  let p := parser_nextToken p in
  p.

Record ParseError := mkParseError {
  Position : nat;
  Message : string
}.


Definition validKeys : gmap string bool :=
  list_to_map
    [("enter", true); ("tab", true); ("escape", true); ("space", true);
     ("backspace", true); ("delete", true); ("up", true); ("down", true);
     ("left", true); ("right", true); ("home", true); ("end", true);
     ("pageup", true); ("pagedown", true)].

(** [m[k]] on a [map[string]bool]: the zero value for a missing key. *)
Definition lookupBool (m : gmap string bool) (k : string) : bool :=
  default false (m !! k).

Definition isValidKey `{GoUnicode} (key : string) : bool :=
  let lowerKey := ToLower key in
  if lookupBool validKeys lowerKey then true
  else if HasPrefix lowerKey "ctrl+"
          && bool_decide (String.length lowerKey = 6%nat) then true
  else false.

Definition parseDuration (s : string) : option Z := ParseDuration s.

(** The messages of the parser's errors. *)
Definition msgExpectedCommand (lit : string) : string :=
  "expected command or key, got " +:+ lit.
Definition msgExpectedDurationAfterAt : string := "expected duration after @".
Definition msgInvalidDuration `{GoUnicode} (lit : string) : string :=
  "invalid duration " +:+ Quote lit +:+ "; use '500ms' or '2s'".
Definition msgExpectedString : string := "expected quoted string after Type".
Definition msgExpectedDurationAfterSleep : string :=
  "expected duration after Sleep".
Definition validKeyList : string :=
  "Enter, Tab, Escape, Space, Backspace, Delete, Up, Down, Left, Right, Home, End, PageUp, PageDown, Ctrl+C, Ctrl+D, Ctrl+L, Ctrl+Z".
Definition msgUnknownKey `{GoUnicode} (keyName : string) : string :=
  "unknown key " +:+ Quote keyName +:+ "; valid keys: " +:+ validKeyList.
Definition msgInvalidRepeat `{GoUnicode} (lit : string) : string :=
  "invalid repeat count " +:+ Quote lit.

Definition errorAt (p : parser) (msg : string) : option ParseError :=
  Some {| Position := tposition (curToken p); Message := msg |}.

Definition isDurationOrNumber (t : token) : bool :=
  bool_decide (kind t = tokenDuration) || bool_decide (kind t = tokenNumber).

Definition parseTypeAction `{GoUnicode} (p : parser)
    : (Action * option ParseError) * parser :=
  let speed := (50 * Millisecond)%Z in
  let p := parser_nextToken p in
  let afterSpeed : (Z * option ParseError) * parser :=
    if bool_decide (kind (curToken p) = tokenAt) then
      let p := parser_nextToken p in
      if negb (isDurationOrNumber (curToken p)) then
        ((speed, errorAt p msgExpectedDurationAfterAt), p)
      else
        match parseDuration (literal (curToken p)) with
        | None =>
            ((speed, errorAt p (msgInvalidDuration (literal (curToken p)))), p)
        | Some duration => ((duration, None), parser_nextToken p)
        end
    else ((speed, None), p) in
  match afterSpeed with
  | ((_, Some err), p) => ((zeroAction, Some err), p)
  | ((speed, None), p) =>
      if negb (bool_decide (kind (curToken p) = tokenString)) then
        ((zeroAction, errorAt p msgExpectedString), p)
      else
        let action :=
          mkAction ActionType (literal (curToken p)) "" 0 speed 0 0 in
        ((action, None), parser_nextToken p)
  end.

Definition parseSleepAction `{GoUnicode} (p : parser)
    : (Action * option ParseError) * parser :=
  let p := parser_nextToken p in
  if negb (isDurationOrNumber (curToken p)) then
    ((zeroAction, errorAt p msgExpectedDurationAfterSleep), p)
  else
    match parseDuration (literal (curToken p)) with
    | None =>
        ((zeroAction, errorAt p (msgInvalidDuration (literal (curToken p)))), p)
    | Some duration =>
        ((mkAction ActionSleep "" "" duration 0 0 0, None), parser_nextToken p)
    end.

Definition parseKeyAction `{GoUnicode} (p : parser)
    : (Action * option ParseError) * parser :=
  let keyName := literal (curToken p) in
  let pos := tposition (curToken p) in
  if negb (isValidKey keyName) then
    ((zeroAction, Some {| Position := pos; Message := msgUnknownKey keyName |}),
     p)
  else
    let p := parser_nextToken p in
    let afterDelay : (Z * option ParseError) * parser :=
      if bool_decide (kind (curToken p) = tokenAt) then
        let p := parser_nextToken p in
        if negb (isDurationOrNumber (curToken p)) then
          ((0%Z, errorAt p msgExpectedDurationAfterAt), p)
        else
          match parseDuration (literal (curToken p)) with
          | None =>
              ((0%Z, errorAt p (msgInvalidDuration (literal (curToken p)))), p)
          | Some duration => ((duration, None), parser_nextToken p)
          end
      else ((0%Z, None), p) in
    match afterDelay with
    | ((_, Some err), p) => ((zeroAction, Some err), p)
    | ((delay, None), p) =>
        if bool_decide (kind (curToken p) = tokenNumber) then
          match Atoi (literal (curToken p)) with
          | None =>
              ((zeroAction,
                errorAt p (msgInvalidRepeat (literal (curToken p)))), p)
          | Some repeat =>
              ((mkAction ActionKey "" keyName 0 0 delay repeat, None),
               parser_nextToken p)
          end
        else ((mkAction ActionKey "" keyName 0 0 delay 1, None), p)
    end.

Definition parseCtrlAction `{GoUnicode} (p : parser)
    : (Action * option ParseError) * parser :=
  let keyName := literal (curToken p) in
  let action :=
    mkAction ActionCtrl "" (ToLower (sliceFrom 5 keyName)) 0 0 0 0 in
  ((action, None), parser_nextToken p).

Definition parseAction `{GoUnicode} (p : parser)
    : (Action * option ParseError) * parser :=
  if negb (bool_decide (kind (curToken p) = tokenIdent)) then
    ((zeroAction, errorAt p (msgExpectedCommand (literal (curToken p)))), p)
  else
    let ident := ToLower (literal (curToken p)) in
    if HasPrefix ident "ctrl+" then parseCtrlAction p
    else if bool_decide (ident = "type") then parseTypeAction p
    else if bool_decide (ident = "sleep") then parseSleepAction p
    else parseKeyAction p.

(** The loop of [Parse]: [None] stands for the nil slice returned next to an
    error.  Every round that does not fail consumes a token, so the number
    of rounds is bounded by the number of tokens, itself bounded by the
    length of the script (see [Parse_fuel_enough]). *)
Fixpoint parseLoop `{GoUnicode} (fuel : nat) (p : parser)
    (actions : list Action) : option (list Action) * option ParseError :=
  if bool_decide (kind (curToken p) = tokenEOF) then (Some actions, None)
  else
    match fuel with
    | O => (Some actions, None)
    | S fuel' =>
        match parseAction p with
        | ((_, Some err), _) => (None, Some err)
        | ((action, None), p') => parseLoop fuel' p' (actions ++ [action])
        end
    end.

Definition parseFuel (script : string) : nat := 2 * String.length script + 6.

Definition Parse `{GoUnicode} (script : string)
    : option (list Action) * option ParseError :=
  let l := newLexer script in
  let p := newParser l in
  parseLoop (parseFuel script) p [].

(** ** [internal/input/keypress.go] *)

Definition specialKeys : gmap string bool :=
  list_to_map
    [("enter", true); ("escape", true); ("tab", true); ("up", true);
     ("down", true); ("left", true); ("right", true); ("home", true);
     ("end", true); ("backspace", true); ("delete", true); ("ctrl+c", true);
     ("ctrl+d", true)].

Definition isAlphanumeric (key : string) : bool :=
  if negb (bool_decide (String.length key = 1%nat)) then false
  else
    let char := byteAt key 0 in
    inRange 97 122 char || inRange 65 90 char || inRange 48 57 char.

Definition IsValidKey `{GoUnicode} (key : string) : bool :=
  if isAlphanumeric key then true
  else lookupBool specialKeys (ToLower key).

(** The errors of the executor.  [errWrap] is [fmt.Errorf("...: %w", err)],
    its first argument the constant head of the format.  The error of
    [executeSingleAction] for an action kind outside the four constants has
    no counterpart: [ActionKind] has no other value here. *)
Inductive error :=
  | errKeyNotRecognized (key : string)
  | errInvalidCtrlFormat (key : string)
  | errRenderer
  | errContext
  | errWrap (what : string) (err : error).

Definition specialKeyMap : gmap string string :=
  list_to_map
    [("enter", "Enter"); ("escape", "Escape"); ("tab", "Tab");
     ("up", "ArrowUp"); ("down", "ArrowDown"); ("left", "ArrowLeft");
     ("right", "ArrowRight"); ("home", "Home"); ("end", "End");
     ("backspace", "Backspace"); ("delete", "Delete"); ("ctrl+c", "c");
     ("ctrl+d", "d")].

Definition KeyToKeyCode `{GoUnicode} (key : string) : string * option error :=
  if isAlphanumeric key then (key, None)
  else
    let lowerKey := ToLower key in
    match specialKeyMap !! lowerKey with
    | Some code => (code, None)
    | None => ("", Some (errKeyNotRecognized key))
    end.

(** ** Package [capture]: the executor *)

(** One [chromedp.KeyEvent] handed to [chromedp.Run]: the keys and whether
    the Ctrl modifier is set. *)
Record KeyEvent := mkKeyEvent {
  keys : string;
  withCtrl : bool
}.

#[global] Instance KeyEvent_eq_dec : EqDecision KeyEvent.
Proof. solve_decision. Defined.

(** What lies outside the program: whether a [chromedp.Run] call fails, given
    the calls made before it, and which case a [select] takes when the
    context and the timer are ready at the same instant. *)
Class Externals := {
  keyEventFails : list KeyEvent -> KeyEvent -> bool;
  timerWinsTie : Z -> bool
}.

(** The state the executor acts on: the renderer calls made so far, the
    clock (nanoseconds; only waits advance it), and the stop channel of the
    periodic capture task ([None]: nil, no such task; [Some true]: closed and
    the task joined). *)
Record world := mkWorld {
  calls : list KeyEvent;
  now : Z;
  intervalStopChan : option bool
}.

(** A context is the instant at which its [Done] channel closes, if ever. *)
Definition context := option Z.

(** [select { case <-ctx.Done(): ...; default: }]. *)
Definition ctxDone (ctx : context) (w : world) : bool :=
  match ctx with
  | Some c => (c <=? now w)%Z
  | None => false
  end.

Definition setNow (t : Z) (w : world) : world :=
  {| calls := calls w; now := t; intervalStopChan := intervalStopChan w |}.

(** [select { case <-ctx.Done(): return ctx.Err(); case <-time.After(d): }]. *)
Definition waitFor `{Externals} (ctx : context) (d : Z) (w : world)
    : option error * world :=
  let fire := (now w + Z.max d 0)%Z in
  match ctx with
  | None => (None, setNow fire w)
  | Some c =>
      let ready := Z.max c (now w) in
      if (ready <? fire)%Z then (Some errContext, setNow ready w)
      else if (fire <? ready)%Z then (None, setNow fire w)
      else if timerWinsTie fire then (None, setNow fire w)
      else (Some errContext, setNow fire w)
  end.

(** [chromedp.Run(ctx, chromedp.KeyEvent(...))]. *)
Definition chromedpRun `{Externals} (ev : KeyEvent) (w : world)
    : option error * world :=
  (if keyEventFails (calls w) ev then Some errRenderer else None,
   {| calls := calls w ++ [ev]; now := now w;
      intervalStopChan := intervalStopChan w |}).

(** [if intervalStopChan != nil { close(intervalStopChan); wg.Wait() }]. *)
Definition stopInterval (w : world) : world :=
  {| calls := calls w; now := now w;
     intervalStopChan := match intervalStopChan w with
                         | Some _ => Some true
                         | None => None
                         end |}.

Definition isCtrlKey `{GoUnicode} (key : string) : bool :=
  let lowerKey := ToLower key in
  HasPrefix lowerKey "ctrl+" && bool_decide (String.length lowerKey = 6%nat).

Definition sendCtrlKeypress `{GoUnicode} `{Externals} (key : string)
    (w : world) : option error * world :=
  let lowerKey := ToLower key in
  if negb (HasPrefix lowerKey "ctrl+")
     || negb (bool_decide (String.length lowerKey = 6%nat))
  then (Some (errInvalidCtrlFormat key), w)
  else chromedpRun (mkKeyEvent (sliceFrom 5 lowerKey) true) w.

Definition sendKeypress `{GoUnicode} `{Externals} (key : string) (w : world)
    : option error * world :=
  if isCtrlKey key then sendCtrlKeypress key w
  else
    match KeyToKeyCode key with
    | (_, Some err) => (Some (errWrap "lookup key code" err), w)
    | (keyCode, None) => chromedpRun (mkKeyEvent keyCode false) w
    end.

(** *** [for _, char := range action.Text]

    Go decodes the string as UTF-8; a byte that starts no valid sequence
    yields U+FFFD with width 1, and [string(char)] encodes the rune again. *)

Definition replacementChar : string :=
  String (ascii_of_nat 239) (String (ascii_of_nat 191) (str (ascii_of_nat 189))).

Definition continuation (lo hi : nat) (s : string) : option (ascii * string) :=
  match s with
  | String c r => if inRange lo hi c then Some (c, r) else None
  | EmptyString => None
  end.

(** The table [first] of package utf8: the size of the sequence a byte
    [>= 0x80] starts and the accepted range of its second byte. *)
Definition firstByte (c : ascii) : option (nat * nat * nat) :=
  if inRange 194 223 c then Some (2, 128, 191)%nat
  else if inRange 224 224 c then Some (3, 160, 191)%nat
  else if inRange 225 236 c || inRange 238 239 c then Some (3, 128, 191)%nat
  else if inRange 237 237 c then Some (3, 128, 159)%nat
  else if inRange 240 240 c then Some (4, 144, 191)%nat
  else if inRange 241 243 c then Some (4, 128, 191)%nat
  else if inRange 244 244 c then Some (4, 128, 143)%nat
  else None.

(** [string(char)] for the rune at the head of [String c rest], and its
    width. *)
Definition decodeRune (c : ascii) (rest : string) : string * nat :=
  if (byte c <? 128)%nat then (str c, 1%nat)
  else
    match firstByte c with
    | None => (replacementChar, 1%nat)
    | Some (size, lo, hi) =>
        match continuation lo hi rest with
        | None => (replacementChar, 1%nat)
        | Some (c1, r1) =>
            if bool_decide (size = 2%nat) then (String c (str c1), 2%nat)
            else
              match continuation 128 191 r1 with
              | None => (replacementChar, 1%nat)
              | Some (c2, r2) =>
                  if bool_decide (size = 3%nat) then
                    (String c (String c1 (str c2)), 3%nat)
                  else
                    match continuation 128 191 r2 with
                    | None => (replacementChar, 1%nat)
                    | Some (c3, _) =>
                        (String c (String c1 (String c2 (str c3))), 4%nat)
                    end
              end
        end
    end.

(** The values [string(char)] of the loop, in order; [skip] counts the bytes
    of the current rune still to pass over. *)
Fixpoint rangeString (skip : nat) (s : string) : list string :=
  match s with
  | EmptyString => []
  | String c rest =>
      match skip with
      | S skip' => rangeString skip' rest
      | O =>
          let '(char, width) := decodeRune c rest in
          char :: rangeString (width - 1) rest
      end
  end.

Section Executor.
Context `{GoUnicode} `{Externals}.
Variable ctx : context.

(** The loop of [executeTypeAction] over the characters left to send. *)
Fixpoint typeChars (speed : Z) (chars : list string) (w : world)
    : option error * world :=
  match chars with
  | [] => (None, w)
  | char :: rest =>
      if ctxDone ctx w then (Some errContext, w)
      else
        match sendKeypress char w with
        | (Some err, w) => (Some (errWrap "send character" err), stopInterval w)
        | (None, w) =>
            if (0 <? speed)%Z then
              match waitFor ctx speed w with
              | (Some err, w) => (Some err, w)
              | (None, w) => typeChars speed rest w
              end
            else typeChars speed rest w
        end
  end.

(** The optional pause closing a Type or Key action. *)
Definition postDelay (delay : Z) (w : world) : option error * world :=
  if (0 <? delay)%Z then waitFor ctx delay w else (None, w).

Definition executeTypeAction (action : Action) (w : world)
    : option error * world :=
  match typeChars (Speed action) (rangeString 0 (Text action)) w with
  | (Some err, w) => (Some err, w)
  | (None, w) => postDelay (Delay action) w
  end.

Definition executeSleepAction (action : Action) (w : world)
    : option error * world :=
  waitFor ctx (Duration action) w.

(** The loop [for i := 0; i < repeat; i++] of [executeKeyAction], by the
    number of rounds left. *)
Fixpoint keyRounds (key : string) (rounds : nat) (w : world)
    : option error * world :=
  match rounds with
  | O => (None, w)
  | S rounds' =>
      if ctxDone ctx w then (Some errContext, w)
      else
        match sendKeypress key w with
        | (Some err, w) => (Some (errWrap "send key" err), stopInterval w)
        | (None, w) => keyRounds key rounds' w
        end
  end.

Definition executeKeyAction (action : Action) (w : world)
    : option error * world :=
  let repeat := Repeat action in
  let repeat := if (repeat <=? 0)%Z then 1%Z else repeat in
  match keyRounds (Key action) (Z.to_nat repeat) w with
  | (Some err, w) => (Some err, w)
  | (None, w) => postDelay (Delay action) w
  end.

Definition executeCtrlAction (action : Action) (w : world)
    : option error * world :=
  match sendCtrlKeypress ("ctrl+" +:+ Key action) w with
  | (Some err, w) => (Some (errWrap "send Ctrl+" err), stopInterval w)
  | (None, w) => (None, w)
  end.

Definition executeSingleAction (action : Action) (w : world)
    : option error * world :=
  match Kind action with
  | ActionType => executeTypeAction action w
  | ActionSleep => executeSleepAction action w
  | ActionKey => executeKeyAction action w
  | ActionCtrl => executeCtrlAction action w
  end.

(** The configuration fields the executor reads. *)
Record Config := mkConfig {
  Actions : list Action;
  Keypresses : list string;
  Delays : list Z
}.

(** The loop of [executeKeypresses], [i] the index of the next key. *)
Fixpoint keypressesFrom (delays : list Z) (i : nat) (keys : list string)
    (w : world) : option error * world :=
  match keys with
  | [] => (None, w)
  | key :: rest =>
      let waited :=
        if (0 <? i)%nat && (i - 1 <? length delays)%nat then
          waitFor ctx (default 0%Z (delays !! (i - 1)%nat)) w
        else (None, w) in
      match waited with
      | (Some err, w) => (Some err, w)
      | (None, w) =>
          match sendKeypress key w with
          | (Some err, w) =>
              (Some (errWrap "send keypress" err), stopInterval w)
          | (None, w) => keypressesFrom delays (S i) rest w
          end
      end
  end.

Definition executeKeypresses (config : Config) (w : world)
    : option error * world :=
  keypressesFrom (Delays config) 0 (Keypresses config) w.

(** The loop [for i, action := range actions] of [executeActions]. *)
Fixpoint actionsLoop (actions : list Action) (w : world)
    : option error * world :=
  match actions with
  | [] => (None, w)
  | action :: rest =>
      match executeSingleAction action w with
      | (Some err, w) => (Some err, w)
      | (None, w) => actionsLoop rest w
      end
  end.

Definition executeActions (config : Config) (w : world)
    : option error * world :=
  let actions := Actions config in
  let useActions := (0 <? length actions)%nat in
  if negb useActions then executeKeypresses config w
  else actionsLoop actions w.
End Executor.

(** ** Vocabulary of the statements *)

(** The lexer between two calls: [readPos] is one past [position] and [ch]
    is the byte at [position], NUL past the end.  [readChar] establishes it. *)
Definition lexerOK (l : lexer) : Prop :=
  readPos l = S (position l)
  /\ ch l = if (String.length (input l) <=? position l)%nat then zero
            else byteAt (input l) (position l).

(** The bytes not yet read, plus one. *)
Definition lexRank (l : lexer) : nat := S (String.length (input l)) - readPos l.

Definition notEOF (t : token) : nat :=
  if bool_decide (kind t = tokenEOF) then 0%nat else 1%nat.

(** A bound on the tokens the parser can still consume. *)
Definition parserRank (p : parser) : nat :=
  2 * lexRank (l p) + 2 * notEOF (peekToken p) + notEOF (curToken p).

(** What one token costs: the lexer stays well formed on the same input and
    never moves back; a token other than end-of-input moves it forward. *)
Definition lexStep (l l' : lexer) (t : token) : Prop :=
  lexerOK l' /\ input l' = input l /\ (readPos l <= readPos l')%nat
  /\ (kind t <> tokenEOF -> (lexRank l' < lexRank l)%nat).

(** The parser after [n] calls of [nextToken]. *)
Definition advance (n : nat) (p : parser) : parser :=
  Nat.iter n parser_nextToken p.

Fixpoint allDigits (s : string) : bool :=
  match s with
  | EmptyString => true
  | String c s' => isDigit c && allDigits s'
  end.

(** A number token spells a run of decimal digits. *)
Definition tokenOK (t : token) : Prop :=
  kind t = tokenNumber -> allDigits (literal t) = true.

Definition parserOK (p : parser) : Prop :=
  lexerOK (l p) /\ tokenOK (curToken p) /\ tokenOK (peekToken p).

Definition allBytes (P : ascii -> bool) (s : string) : bool :=
  forallb P (list_ascii_of_string s).





(** The well-formed lexer of [script] standing at byte [i]. *)
Definition lexerAt (script : string) (i : nat) : lexer :=
  {| input := script; position := i; readPos := S i;
     ch := if (String.length script <=? i)%nat then zero
           else byteAt script i |}.




(** The messages a [ParseError] of this parser can carry. *)
Inductive parserMessage `{GoUnicode} : string -> Prop :=
  | UnexpectedToken lit : parserMessage (msgExpectedCommand lit)
  | UnknownKey keyName : parserMessage (msgUnknownKey keyName)
  | MissingDurationAfterAt : parserMessage msgExpectedDurationAfterAt
  | MissingString : parserMessage msgExpectedString
  | MissingDurationAfterSleep : parserMessage msgExpectedDurationAfterSleep
  | InvalidDuration lit : parserMessage (msgInvalidDuration lit)
  | InvalidRepeat lit : parserMessage (msgInvalidRepeat lit).

(** The outcomes of a parse function started in [p]: success leaves the
    parser one or more tokens further; failure reports the position of the
    token that was current after some number of steps, with one of the
    parser's messages. *)
Definition consumed (p p' : parser) : Prop :=
  exists n, p' = advance (S n) p.

Definition failedAt `{GoUnicode} (p : parser) (e : ParseError) : Prop :=
  (exists n, Position e = tposition (curToken (advance n p)))
  /\ parserMessage (Message e).



(** The bytes [isAlphanumeric] accepts. *)
Definition alnumByte (c : ascii) : bool :=
  inRange 97 122 c || inRange 65 90 c || inRange 48 57 c.

(** The event [sendKeypress] hands to the renderer for a key it accepts. *)
Definition keyEventOf `{GoUnicode} (key : string) : KeyEvent :=
  if isCtrlKey key then mkKeyEvent (sliceFrom 5 (ToLower key)) true
  else mkKeyEvent (KeyToKeyCode key).1 false.

(** A renderer that never fails, and a timer that wins every tie. *)
Definition reliable : Externals :=
  {| keyEventFails := fun _ _ => false; timerWinsTie := fun _ => true |}.

(** How a run under a context cancelled at [c] relates to the run [m None]
    that is never cancelled and ends in [wEnd]: it either ends in the same
    state no later than [c], or stops with the context's error at [c] having
    made an initial part of the calls. *)
Definition cutAt (c : Z) (r : option error * world) (wEnd : world) : Prop :=
  (r = (None, wEnd) /\ (now wEnd <= c)%Z)
  \/ (exists w2, r = (Some errContext, w2)
                /\ calls w2 `prefix_of` calls wEnd /\ now w2 = c).

(** ** The lexer's loops terminate within their bounds *)

Lemma readChar_ok l : lexerOK (readChar l).
Proof. split; reflexivity. Qed.

Lemma newLexer_ok script : lexerOK (newLexer script).
Proof. apply readChar_ok. Qed.

Lemma readChar_past_end l :
  (String.length (input l) <= readPos l)%nat -> ch (readChar l) = zero.
Proof.
  intros Hle. unfold readChar; simpl.
  destruct (Nat.leb_spec (String.length (input l)) (readPos l)); [done | lia].
Qed.

Lemma scanWhile_stop cond n sb l :
  cond (ch l) = false -> scanWhile cond n sb l = (sb, l).
Proof. intros Hc. destruct n; simpl; rewrite Hc; reflexivity. Qed.

(** With [lexFuel] rounds or more the loop leaves through its condition. *)
Lemma scanWhile_exit cond n sb l :
  cond zero = false -> (lexFuel l <= n)%nat ->
  cond (ch (scanWhile cond n sb l).2) = false.
Proof.
  intros Hz. revert sb l.
  induction n as [|n IH]; intros sb l Hn; [unfold lexFuel in Hn; lia|].
  simpl. destruct (cond (ch l)) eqn:Hc; [|simpl; exact Hc].
  destruct (decide (String.length (input l) <= readPos l)%nat) as [Hend|Hin].
  - rewrite scanWhile_stop; cbn [snd];
      rewrite readChar_past_end by done; exact Hz.
  - apply IH. unfold lexFuel in *. simpl. lia.
Qed.

(** More fuel than [lexFuel] changes nothing. *)
Lemma scanWhile_fuel cond n m sb l :
  cond zero = false -> (lexFuel l <= n)%nat -> (lexFuel l <= m)%nat ->
  scanWhile cond n sb l = scanWhile cond m sb l.
Proof.
  intros Hz. revert m sb l.
  induction n as [|n IH]; intros m sb l Hn Hm; [unfold lexFuel in Hn; lia|].
  destruct m as [|m]; [unfold lexFuel in Hm; lia|].
  simpl. destruct (cond (ch l)) eqn:Hc; [|reflexivity].
  destruct (decide (String.length (input l) <= readPos l)%nat) as [Hend|Hin].
  - rewrite !scanWhile_stop; try reflexivity;
      rewrite readChar_past_end by done; exact Hz.
  - apply IH; unfold lexFuel in *; simpl; lia.
Qed.

Lemma scanWhile_ok cond n sb l :
  lexerOK l -> lexerOK (scanWhile cond n sb l).2.
Proof.
  revert sb l. induction n as [|n IH]; intros sb l Hl; simpl.
  - destruct (cond (ch l)); exact Hl.
  - destruct (cond (ch l)); [|exact Hl]. apply IH, readChar_ok.
Qed.

Lemma scanWhile_input cond n sb l :
  input (scanWhile cond n sb l).2 = input l.
Proof.
  revert sb l. induction n as [|n IH]; intros sb l; simpl.
  - destruct (cond (ch l)); reflexivity.
  - destruct (cond (ch l)); [|reflexivity]. rewrite IH. reflexivity.
Qed.

Lemma scanWhile_readPos cond n sb l :
  (readPos l <= readPos (scanWhile cond n sb l).2)%nat.
Proof.
  revert sb l. induction n as [|n IH]; intros sb l; simpl.
  - destruct (cond (ch l)); done.
  - destruct (cond (ch l)); [|done].
    etrans; [|apply IH]. simpl. lia.
Qed.

Lemma isWhitespace_zero : isWhitespace zero = false.
Proof. reflexivity. Qed.

Lemma skipWhitespace_ok l : lexerOK l -> lexerOK (skipWhitespace l).
Proof. apply scanWhile_ok. Qed.

Lemma skipWhitespace_input l : input (skipWhitespace l) = input l.
Proof. apply scanWhile_input. Qed.

Lemma skipWhitespace_readPos l : (readPos l <= readPos (skipWhitespace l))%nat.
Proof. apply scanWhile_readPos. Qed.

Lemma skipWhitespace_exit l : isWhitespace (ch (skipWhitespace l)) = false.
Proof. apply scanWhile_exit; [reflexivity | done]. Qed.

Lemma skipWhitespace_stop l : isWhitespace (ch l) = false -> skipWhitespace l = l.
Proof. intros Hc. unfold skipWhitespace. rewrite scanWhile_stop; done. Qed.

Lemma lexerOK_inside l :
  lexerOK l -> ch l <> zero -> (readPos l <= String.length (input l))%nat.
Proof.
  intros [Hr Hc] Hnz. rewrite Hr.
  destruct (Nat.leb_spec (String.length (input l)) (position l)); [|lia].
  congruence.
Qed.

Lemma lexStep_forward l l' t :
  lexerOK l -> ch l <> zero ->
  lexerOK l' -> input l' = input l -> (readPos l < readPos l')%nat ->
  lexStep l l' t.
Proof.
  intros Hl Hnz Hl' Hin Hlt. pose proof (lexerOK_inside l Hl Hnz).
  split; [done|]. split; [done|]. split; [lia|].
  intros _. unfold lexRank. rewrite Hin. lia.
Qed.

Lemma readString_step q l :
  lexerOK l -> ch l <> zero ->
  lexStep l (readString q l).2 (readString q l).1.
Proof.
  intros Hl Hnz. unfold readString.
  destruct (scanWhile _ _ _ _) as [sb l1] eqn:Hs. cbn [fst snd].
  assert (l1 = (scanWhile
    (fun c => negb (bool_decide (c = q)) && negb (bool_decide (c = zero)))
    (lexFuel (readChar l)) "" (readChar l)).2) as Hl1 by (rewrite Hs; done).
  apply lexStep_forward; [done | done | apply readChar_ok | |].
  - simpl. rewrite Hl1, scanWhile_input. reflexivity.
  - simpl. pose proof (scanWhile_readPos
      (fun c => negb (bool_decide (c = q)) && negb (bool_decide (c = zero)))
      (lexFuel (readChar l)) "" (readChar l)) as Hp.
    rewrite <- Hl1 in Hp. simpl in Hp. lia.
Qed.

Lemma scanWhile_forward cond sb l :
  cond (ch l) = true ->
  (readPos l < readPos (scanWhile cond (lexFuel l) sb l).2)%nat.
Proof.
  intros Hc. unfold lexFuel. simpl. rewrite Hc.
  pose proof (scanWhile_readPos cond
    (String.length (input l) - readPos l) (sb +:+ str (ch l)) (readChar l)) as Hp.
  simpl in Hp. lia.
Qed.

Lemma readNumberOrDuration_step l :
  lexerOK l -> ch l <> zero -> isDigit (ch l) = true ->
  lexStep l (readNumberOrDuration l).2 (readNumberOrDuration l).1.
Proof.
  intros Hl Hnz Hd. unfold readNumberOrDuration.
  pose proof (scanWhile_forward isDigit "" l Hd) as Hfw.
  pose proof (scanWhile_ok isDigit (lexFuel l) "" l Hl) as Hok.
  pose proof (scanWhile_input isDigit (lexFuel l) "" l) as Hin.
  destruct (scanWhile isDigit (lexFuel l) "" l) as [sb l1]. cbn [fst snd] in *.
  repeat case_match; cbn [fst snd]; apply lexStep_forward; try done;
    try apply readChar_ok; simpl; lia.
Qed.

Lemma readIdent_step l :
  lexerOK l -> ch l <> zero -> isLetter (ch l) = true ->
  lexStep l (readIdent l).2 (readIdent l).1.
Proof.
  intros Hl Hnz Hd. unfold readIdent.
  set (cond := fun c => isLetter c || isDigit c || bool_decide (c = "+"%char)).
  assert (cond (ch l) = true) as Hc by (unfold cond; rewrite Hd; done).
  pose proof (scanWhile_forward cond "" l Hc) as Hfw.
  pose proof (scanWhile_ok cond (lexFuel l) "" l Hl) as Hok.
  pose proof (scanWhile_input cond (lexFuel l) "" l) as Hin.
  destruct (scanWhile cond (lexFuel l) "" l) as [sb l1]. cbn [fst snd] in *.
  apply lexStep_forward; done.
Qed.

Lemma nextTokenFrom_eq fuel l :
  nextTokenFrom fuel l =
  let l := skipWhitespace l in
  let pos := position l in
  if bool_decide (ch l = "@"%char) then (mkToken tokenAt "@" pos, readChar l)
  else if bool_decide (ch l = "+"%char) then
    (mkToken tokenPlus "+" pos, readChar l)
  else if bool_decide (ch l = squote) then readString squote l
  else if bool_decide (ch l = dquote) then readString dquote l
  else if bool_decide (ch l = zero) then (mkToken tokenEOF "" pos, l)
  else if isDigit (ch l) then readNumberOrDuration l
  else if isLetter (ch l) then readIdent l
  else
    match fuel with
    | O => (mkToken tokenEOF "" pos, l)
    | S fuel' => nextTokenFrom fuel' (readChar l)
    end.
Proof. destruct fuel; reflexivity. Qed.

Lemma nextTokenFrom_eof fuel l :
  ch l = zero -> nextTokenFrom fuel l = (mkToken tokenEOF "" (position l), l).
Proof.
  intros Hz. rewrite nextTokenFrom_eq.
  rewrite skipWhitespace_stop by (rewrite Hz; reflexivity).
  cbv zeta. rewrite Hz. reflexivity.
Qed.

(** [ch l] is a known byte other than NUL. *)
Ltac not_nul :=
  let E := fresh in
  intro E;
  match goal with
  | H : ch _ = _ |- _ => rewrite H in E; vm_compute in E; discriminate
  end.

Lemma lexStep_trans l1 l2 l3 t :
  (readPos l1 <= readPos l2)%nat -> input l2 = input l1 ->
  lexStep l2 l3 t -> lexStep l1 l3 t.
Proof.
  intros Hle Hin (Hok & Hin' & Hle' & Hrank).
  split; [done|]. split; [congruence|]. split; [lia|].
  intros Hk. specialize (Hrank Hk). unfold lexRank in *. rewrite Hin', Hin in *.
  lia.
Qed.

Lemma nextTokenFrom_step fuel l :
  lexerOK l -> lexStep l (nextTokenFrom fuel l).2 (nextTokenFrom fuel l).1.
Proof.
  revert l. induction fuel as [|fuel IH]; intros l Hl;
    rewrite nextTokenFrom_eq; cbv zeta;
    pose proof (skipWhitespace_ok l Hl) as Hok;
    pose proof (skipWhitespace_input l) as Hin;
    pose proof (skipWhitespace_readPos l) as Hle;
    set (l1 := skipWhitespace l) in *;
    apply (lexStep_trans l l1); try done.
  all: repeat case_bool_decide.
  all: try (apply lexStep_forward; [done | not_nul | apply readChar_ok
                                   | reflexivity | simpl; lia]).
  all: try (apply readString_step; [done | not_nul]).
  all: try (unfold lexStep; cbn [fst snd kind]; split_and!; (done || lia)).
  all: destruct (isDigit (ch l1)) eqn:Hd;
    [apply readNumberOrDuration_step; done|].
  all: destruct (isLetter (ch l1)) eqn:Hlt; [apply readIdent_step; done|].
  - unfold lexStep; cbn [fst snd kind]; split_and!; (done || lia).
  - apply (lexStep_trans l1 (readChar l1)); [simpl; lia | reflexivity |].
    apply IH, readChar_ok.
Qed.

Lemma lexer_nextToken_step l :
  lexerOK l -> lexStep l (lexer_nextToken l).2 (lexer_nextToken l).1.
Proof. apply nextTokenFrom_step. Qed.

(** [lexer.nextToken] needs no more than its fuel: any larger amount gives
    the same token, so the recursion for skipped bytes ends by itself. *)
Lemma nextTokenFrom_fuel n m l :
  (lexFuel l <= n)%nat -> (lexFuel l <= m)%nat ->
  nextTokenFrom n l = nextTokenFrom m l.
Proof.
  revert m l. induction n as [|n IH]; intros m l Hn Hm;
    [unfold lexFuel in Hn; lia|].
  destruct m as [|m]; [unfold lexFuel in Hm; lia|].
  rewrite !(nextTokenFrom_eq (S _)). cbv zeta.
  pose proof (skipWhitespace_readPos l) as Hle.
  pose proof (skipWhitespace_input l) as Hin.
  set (l1 := skipWhitespace l) in *.
  repeat case_bool_decide; try reflexivity.
  destruct (isDigit (ch l1)); [reflexivity|].
  destruct (isLetter (ch l1)); [reflexivity|].
  destruct (decide (String.length (input l1) <= readPos l1)%nat) as [Hend|Hins].
  - rewrite !nextTokenFrom_eof; try reflexivity;
      apply readChar_past_end; done.
  - apply IH; unfold lexFuel in *; simpl; rewrite Hin in *; lia.
Qed.

(** ** Number tokens are runs of digits *)

Lemma allDigits_snoc s c :
  allDigits (s +:+ str c) = allDigits s && isDigit c.
Proof.
  induction s as [|a s IH]; simpl.
  - destruct (isDigit c); reflexivity.
  - rewrite IH. destruct (isDigit a); reflexivity.
Qed.

Lemma scanWhile_allDigits n sb l :
  allDigits sb = true -> allDigits (scanWhile isDigit n sb l).1 = true.
Proof.
  revert sb l. induction n as [|n IH]; intros sb l Hsb; simpl.
  - destruct (isDigit (ch l)); exact Hsb.
  - destruct (isDigit (ch l)) eqn:Hd; [|exact Hsb].
    apply IH. rewrite allDigits_snoc, Hsb, Hd. reflexivity.
Qed.

Lemma readNumberOrDuration_tokenOK l : tokenOK (readNumberOrDuration l).1.
Proof.
  unfold readNumberOrDuration, tokenOK.
  pose proof (scanWhile_allDigits (lexFuel l) "" l eq_refl) as Hd.
  destruct (scanWhile isDigit (lexFuel l) "" l) as [sb l1].
  repeat case_match; cbn [fst kind literal]; done.
Qed.

Lemma readString_kind q l : kind (readString q l).1 = tokenString.
Proof. unfold readString. destruct (scanWhile _ _ _ _). reflexivity. Qed.

Lemma readIdent_kind l : kind (readIdent l).1 = tokenIdent.
Proof. unfold readIdent. destruct (scanWhile _ _ _ _). reflexivity. Qed.

Lemma nextTokenFrom_tokenOK fuel l : tokenOK (nextTokenFrom fuel l).1.
Proof.
  revert l. induction fuel as [|fuel IH]; intros l;
    rewrite nextTokenFrom_eq; cbv zeta;
    repeat case_match; try done; try apply readNumberOrDuration_tokenOK;
    unfold tokenOK; rewrite ?readString_kind, ?readIdent_kind; done.
Qed.



(** ** The parser consumes tokens *)

Lemma parser_nextToken_cur p : curToken (parser_nextToken p) = peekToken p.
Proof. unfold parser_nextToken. destruct (lexer_nextToken (l p)). done. Qed.

Lemma parser_nextToken_ok p : parserOK p -> parserOK (parser_nextToken p).
Proof.
  intros (Hl & Hc & Hp). unfold parser_nextToken.
  pose proof (lexer_nextToken_step (l p) Hl) as (Hok & _).
  pose proof (nextTokenFrom_tokenOK (S (lexFuel (l p))) (l p)) as Ht.
  fold (lexer_nextToken (l p)) in Ht.
  destruct (lexer_nextToken (l p)) as [t l']. split_and!; done.
Qed.

(** A call of [parser.nextToken] never raises the rank, and lowers it when
    the current token is not end-of-input. *)
Lemma parser_nextToken_rank p :
  parserOK p ->
  (parserRank (parser_nextToken p) + notEOF (curToken p) <= parserRank p)%nat.
Proof.
  intros (Hl & _). unfold parser_nextToken, parserRank.
  pose proof (lexer_nextToken_step (l p) Hl) as (_ & Hin & Hle & Hrank).
  destruct (lexer_nextToken (l p)) as [t l']. cbn [fst snd] in *.
  cbn [l curToken peekToken].
  assert (lexRank l' <= lexRank (l p))%nat
    by (unfold lexRank; rewrite Hin; lia).
  unfold notEOF at 1. case_bool_decide as Ht.
  - unfold notEOF. repeat case_bool_decide; lia.
  - specialize (Hrank Ht). unfold notEOF. repeat case_bool_decide; lia.
Qed.

Lemma advance_S n p : advance (S n) p = advance n (parser_nextToken p).
Proof. unfold advance. apply Nat.iter_succ_r. Qed.


Lemma advance_ok n p : parserOK p -> parserOK (advance n p).
Proof.
  intros Hp. induction n as [|n IH]; [exact Hp|].
  simpl. apply parser_nextToken_ok, IH.
Qed.

Lemma advance_rank n p :
  parserOK p -> (parserRank (advance n p) <= parserRank p)%nat.
Proof.
  intros Hp. induction n as [|n IH]; [done|].
  simpl. pose proof (parser_nextToken_rank _ (advance_ok n p Hp)).
  fold (advance n p) in *. lia.
Qed.

Lemma advance_rank_lt n p :
  parserOK p -> kind (curToken p) <> tokenEOF ->
  (parserRank (advance (S n) p) < parserRank p)%nat.
Proof.
  intros Hp Hk. rewrite advance_S.
  pose proof (advance_rank n _ (parser_nextToken_ok p Hp)).
  pose proof (parser_nextToken_rank p Hp) as Hr.
  unfold notEOF in Hr at 1. case_bool_decide; [done | lia].
Qed.

Lemma consumed_1 p : consumed p (parser_nextToken p).
Proof. exists 0%nat. reflexivity. Qed.

Lemma consumed_next p p' : consumed p p' -> consumed p (parser_nextToken p').
Proof. intros [n ->]. exists (S n). reflexivity. Qed.

Lemma consumed_ok p p' : parserOK p -> consumed p p' -> parserOK p'.
Proof. intros Hp [n ->]. apply advance_ok, Hp. Qed.

Lemma consumed_rank p p' :
  parserOK p -> kind (curToken p) <> tokenEOF -> consumed p p' ->
  (parserRank p' < parserRank p)%nat.
Proof. intros Hp Hk [n ->]. apply advance_rank_lt; done. Qed.

Lemma failedAt_mk `{GoUnicode} p p' msg :
  (p' = p \/ consumed p p') -> parserMessage msg ->
  failedAt p {| Position := tposition (curToken p'); Message := msg |}.
Proof.
  intros Hp Hm. split; [|exact Hm]. simpl.
  destruct Hp as [-> | [n ->]]; [by exists 0%nat | by exists (S n)].
Qed.

Arguments parser_nextToken : simpl never.
Arguments parseDuration : simpl never.
Arguments Atoi : simpl never.
Arguments isValidKey : simpl never.
Arguments ToLower : simpl never.
Arguments HasPrefix : simpl never.
Arguments advance : simpl never.

Ltac consumed_tac :=
  lazymatch goal with
  | |- consumed ?p (parser_nextToken ?p) => apply consumed_1
  | |- consumed ?p (parser_nextToken ?q) => apply consumed_next; consumed_tac
  end.

(** Every leaf of a parse function is one of the two outcomes. *)
Ltac parse_leaf :=
  unfold errorAt in *; simplify_eq;
  first [ consumed_tac
        | apply failedAt_mk;
          [first [by left | right; consumed_tac] | constructor] ].

Ltac parse_cases := repeat (case_bool_decide || case_match); subst.

Lemma parseCtrlAction_spec `{GoUnicode} p a oe p' :
  parseCtrlAction p = ((a, oe), p') -> oe = None /\ consumed p p'.
Proof.
  unfold parseCtrlAction. intros [= <- <- <-]. split; [done|consumed_tac].
Qed.

Lemma parseSleepAction_spec `{GoUnicode} p a oe p' :
  parseSleepAction p = ((a, oe), p') ->
  match oe with None => consumed p p' | Some e => failedAt p e end.
Proof.
  unfold parseSleepAction. intros Hp. parse_cases; parse_leaf.
Qed.

Lemma parseTypeAction_spec `{GoUnicode} p a oe p' :
  parseTypeAction p = ((a, oe), p') ->
  match oe with None => consumed p p' | Some e => failedAt p e end.
Proof.
  unfold parseTypeAction. intros Hp. parse_cases; parse_leaf.
Qed.

Lemma parseKeyAction_spec `{GoUnicode} p a oe p' :
  parseKeyAction p = ((a, oe), p') ->
  match oe with None => consumed p p' | Some e => failedAt p e end.
Proof.
  unfold parseKeyAction. intros Hp. parse_cases; parse_leaf.
Qed.

Lemma parseAction_spec `{GoUnicode} p a oe p' :
  parseAction p = ((a, oe), p') ->
  match oe with None => consumed p p' | Some e => failedAt p e end.
Proof.
  unfold parseAction. intros Hp.
  case_bool_decide as Hk; cbn [negb] in Hp.
  - destruct (HasPrefix _ _).
    + apply parseCtrlAction_spec in Hp as (-> & Hc). exact Hc.
    + case_bool_decide; [by eapply parseTypeAction_spec|].
      case_bool_decide; [by eapply parseSleepAction_spec|].
      by eapply parseKeyAction_spec.
  - parse_leaf.
Qed.

(** ** The loop of [Parse] *)

Lemma parseLoop_eq `{GoUnicode} fuel p actions :
  parseLoop fuel p actions =
  if bool_decide (kind (curToken p) = tokenEOF) then (Some actions, None)
  else
    match fuel with
    | O => (Some actions, None)
    | S fuel' =>
        match parseAction p with
        | ((_, Some err), _) => (None, Some err)
        | ((action, None), p') => parseLoop fuel' p' (actions ++ [action])
        end
    end.
Proof. destruct fuel; reflexivity. Qed.

Lemma parserRank_zero p :
  parserRank p = 0%nat -> kind (curToken p) = tokenEOF.
Proof.
  unfold parserRank, notEOF. intros Hr.
  destruct (decide (kind (curToken p) = tokenEOF)) as [|Hne]; [done|].
  rewrite (bool_decide_eq_false_2 _ Hne) in Hr. lia.
Qed.

(** The fuel of [Parse] is never used up: from a rank on, every amount of
    fuel gives the same result, so the loop ends at end-of-input or at the
    first error. *)
Lemma parseLoop_fuel `{GoUnicode} n m p actions :
  parserOK p -> (parserRank p <= n)%nat -> (parserRank p <= m)%nat ->
  parseLoop n p actions = parseLoop m p actions.
Proof.
  revert m p actions. induction n as [|n IH]; intros m p actions Hp Hn Hm.
  - rewrite !parseLoop_eq, (parserRank_zero p) by lia. reflexivity.
  - rewrite (parseLoop_eq (S n)), (parseLoop_eq m).
    case_bool_decide as Hk; [reflexivity|].
    destruct m as [|m]; [destruct Hk; apply parserRank_zero; lia|].
    destruct (parseAction p) as [[a [e|]] p'] eqn:Ha; [reflexivity|].
    pose proof (parseAction_spec _ _ _ _ Ha) as Hc. simpl in Hc.
    pose proof (consumed_rank _ _ Hp Hk Hc).
    apply IH; [by eapply consumed_ok | lia | lia].
Qed.

Lemma newParser_ok script : parserOK (newParser (newLexer script)).
Proof.
  unfold newParser. do 2 apply parser_nextToken_ok.
  split_and!; [apply newLexer_ok | done | done].
Qed.

Lemma newParser_rank script :
  (parserRank (newParser (newLexer script)) <= parseFuel script)%nat.
Proof.
  unfold newParser.
  set (p0 := {| l := newLexer script; curToken := zeroToken;
                peekToken := zeroToken |}).
  assert (parserOK p0) as Hp0
    by (split_and!; [apply newLexer_ok | done | done]).
  pose proof (parser_nextToken_rank _ Hp0).
  pose proof (parser_nextToken_rank _ (parser_nextToken_ok _ Hp0)).
  assert (parserRank p0 = 2 * String.length script)%nat as Hr0.
  { unfold parserRank, lexRank, p0. cbn.
    change (notEOF zeroToken) with 0%nat. lia. }
  unfold parseFuel. lia.
Qed.

Theorem Parse_fuel_enough `{GoUnicode} script n :
  (parseFuel script <= n)%nat ->
  parseLoop n (newParser (newLexer script)) [] = Parse script.
Proof.
  intros Hn. unfold Parse. pose proof (newParser_rank script).
  apply parseLoop_fuel; [apply newParser_ok | lia | lia].
Qed.




(** ** Scripts of whitespace *)

Lemma byteAt_forallb f s i :
  forallb f (list_ascii_of_string s) = true ->
  (i < String.length s)%nat -> f (byteAt s i) = true.
Proof.
  revert i. induction s as [|c s IH]; intros i Hall Hi; simpl in *; [lia|].
  apply andb_true_iff in Hall as [Hc Hs].
  destruct i as [|i]; [exact Hc|]. unfold byteAt in *. simpl.
  apply IH; [exact Hs | lia].
Qed.

Lemma parser_nextToken_peek p :
  peekToken (parser_nextToken p) = (lexer_nextToken (l p)).1.
Proof. unfold parser_nextToken. destruct (lexer_nextToken (l p)). done. Qed.

Lemma lexer_nextToken_whitespace l :
  lexerOK l ->
  forallb isWhitespace (list_ascii_of_string (input l)) = true ->
  kind (lexer_nextToken l).1 = tokenEOF.
Proof.
  intros Hl Hall. unfold lexer_nextToken. rewrite nextTokenFrom_eq. cbv zeta.
  pose proof (skipWhitespace_ok l Hl) as [_ Hch].
  pose proof (skipWhitespace_exit l) as Hex.
  rewrite skipWhitespace_input in Hch.
  set (l1 := skipWhitespace l) in *.
  assert (ch l1 = zero) as Hz.
  { destruct (Nat.leb_spec (String.length (input l)) (position l1)) as [|Hlt];
      [exact Hch|].
    rewrite Hch, (byteAt_forallb _ _ _ Hall Hlt) in Hex. done. }
  rewrite Hz. reflexivity.
Qed.

(** C7.  A script made only of spaces, tabs, newlines and carriage returns,
    the empty script included, parses to the empty action sequence with no
    error. *)
Theorem Parse_whitespace_only `{GoUnicode} (script : string) :
  forallb isWhitespace (list_ascii_of_string script) = true ->
  Parse script = (Some [], None).
Proof.
  intros Hall. unfold Parse. rewrite parseLoop_eq.
  rewrite bool_decide_eq_true_2; [reflexivity|].
  unfold newParser. rewrite parser_nextToken_cur, parser_nextToken_peek.
  apply lexer_nextToken_whitespace; [apply newLexer_ok | exact Hall].
Qed.

(** ** [Parse] is all-or-nothing *)


(** The error is the one of the first action that fails to parse: the loop
    stops there, whatever was parsed before. *)
Lemma parseLoop_first_error `{GoUnicode} fuel p actions a e p' :
  kind (curToken p) <> tokenEOF ->
  parseAction p = ((a, Some e), p') ->
  parseLoop (S fuel) p actions = (None, Some e).
Proof.
  intros Hk Ha. rewrite parseLoop_eq, bool_decide_eq_false_2, Ha; done.
Qed.

(** ** The repeat count of a parsed Key action *)






(** ** The key of a parsed Ctrl action *)






















(** Where [parseCtrlAction] falls short of the sibling checks: [isValidKey]
    and the executor's [sendCtrlKeypress] take a [ctrl+] name only when one
    byte follows the prefix, but [parseAction] hands every identifier that
    starts with [ctrl+] to [parseCtrlAction], which stores whatever follows. *)
Lemma Parse_ctrl_key_unchecked `{GoUnicode} :
  Parse "Ctrl+" = (Some [mkAction ActionCtrl "" "" 0 0 0 0], None)
  /\ Parse "Ctrl+abc" = (Some [mkAction ActionCtrl "" "abc" 0 0 0 0], None)
  /\ isValidKey "Ctrl+" = false /\ isValidKey "Ctrl+abc" = false.
Proof. split_and!; vm_compute; reflexivity. Qed.

(** ** Where a token starts *)









(** ** The error surface *)






(** ** Lexing a script with a known shape *)

Lemma string_app_cons c a b : String c a +:+ b = String c (a +:+ b).
Proof. reflexivity. Qed.

Lemma string_app_nil_r s : s +:+ "" = s.
Proof.
  induction s as [|c s IH]; [done|]. by rewrite string_app_cons, IH.
Qed.

Lemma string_app_assoc a b c : (a +:+ b) +:+ c = a +:+ (b +:+ c).
Proof.
  induction a as [|x a IH]; [done|]. by rewrite !string_app_cons, IH.
Qed.

Lemma string_length_app a b :
  String.length (a +:+ b) = (String.length a + String.length b)%nat.
Proof.
  induction a as [|x a IH]; [done|].
  rewrite string_app_cons. simpl. by rewrite IH.
Qed.

(** The literal of a number or duration token: a run of digits, followed
    by [ms] or [s] in a duration; it holds no sign and no ['.']. *)
Lemma readNumberOrDuration_literal l t l' :
  readNumberOrDuration l = (t, l') ->
  exists digits,
    allDigits digits = true
    /\ ((kind t = tokenNumber /\ literal t = digits)
        \/ (kind t = tokenDuration /\ literal t = digits +:+ "ms")
        \/ (kind t = tokenDuration /\ literal t = digits +:+ "s")).
Proof.
  unfold readNumberOrDuration.
  pose proof (scanWhile_allDigits (lexFuel l) "" l eq_refl) as Hd.
  destruct (scanWhile isDigit (lexFuel l) "" l) as [sb l1]. cbn [fst] in Hd.
  intros Hr. exists sb. split; [exact Hd|].
  destruct (bool_decide (ch l1 = "m"%char)) eqn:Hm;
    [destruct (bool_decide (peekChar l1 = "s"%char)) eqn:Hs|];
    cbn [andb] in Hr.
  - right. left. injection Hr as <- _. split; [done|]. cbn [literal].
    apply bool_decide_eq_true in Hm, Hs.
    fold (peekChar l1). rewrite Hm, Hs, string_app_assoc. reflexivity.
  - destruct (bool_decide (ch l1 = "s"%char)) eqn:Hc; injection Hr as <- _.
    + apply bool_decide_eq_true in Hc. right. right. by rewrite Hc.
    + by left.
  - destruct (bool_decide (ch l1 = "s"%char)) eqn:Hc; injection Hr as <- _.
    + apply bool_decide_eq_true in Hc. right. right. by rewrite Hc.
    + by left.
Qed.

Lemma byteAt_app_r a c b : byteAt (a +:+ String c b) (String.length a) = c.
Proof. induction a as [|x a IH]; [done|]. exact IH. Qed.

Lemma ch_lexerAt_mid pre c rest :
  ch (lexerAt (pre +:+ String c rest) (String.length pre)) = c.
Proof.
  cbn [ch lexerAt]. rewrite string_length_app, byteAt_app_r. cbn [String.length].
  destruct (Nat.leb_spec (String.length pre + S (String.length rest))
              (String.length pre)); [lia | done].
Qed.

Lemma ch_lexerAt_end s : ch (lexerAt s (String.length s)) = zero.
Proof. cbn [ch lexerAt]. by rewrite Nat.leb_refl. Qed.

Lemma readChar_lexerAt s i : readChar (lexerAt s i) = lexerAt s (S i).
Proof. reflexivity. Qed.

Lemma newLexer_lexerAt s : newLexer s = lexerAt s 0.
Proof. reflexivity. Qed.

(** A scanning loop that stands before a run of bytes it accepts, followed
    by the end of the script or by a byte it refuses, collects the run. *)
Lemma scanWhile_span cond pre run tail n sb :
  cond zero = false -> allBytes cond run = true ->
  match tail with EmptyString => True | String c _ => cond c = false end ->
  (String.length run <= n)%nat ->
  scanWhile cond n sb (lexerAt (pre +:+ (run +:+ tail)) (String.length pre))
  = (sb +:+ run,
     lexerAt (pre +:+ (run +:+ tail)) (String.length pre + String.length run)).
Proof.
  intros Hz. revert pre n sb.
  induction run as [|c run IH]; intros pre n sb Hrun Htail Hn.
  - change ("" +:+ tail) with tail.
    rewrite string_app_nil_r, Nat.add_0_r. apply scanWhile_stop.
    destruct tail as [|c t].
    + rewrite string_app_nil_r, ch_lexerAt_end. exact Hz.
    + rewrite ch_lexerAt_mid. exact Htail.
  - unfold allBytes in Hrun. simpl in Hrun.
    apply andb_true_iff in Hrun as [Hc Hrun].
    destruct n as [|n]; [simpl in Hn; lia|].
    change (String c run +:+ tail) with (String c (run +:+ tail)).
    cbn [scanWhile]. rewrite ch_lexerAt_mid, Hc, readChar_lexerAt.
    replace (pre +:+ String c (run +:+ tail))
      with ((pre +:+ str c) +:+ (run +:+ tail))
      by (rewrite string_app_assoc; reflexivity).
    replace (S (String.length pre)) with (String.length (pre +:+ str c))
      by (rewrite string_length_app; simpl; lia).
    rewrite IH; [|exact Hrun | exact Htail | simpl in Hn; lia].
    rewrite string_app_assoc, string_length_app. simpl.
    do 2 f_equal. lia.
Qed.

Lemma scanWhile_span_end cond pre run n sb :
  cond zero = false -> allBytes cond run = true ->
  (String.length run <= n)%nat ->
  scanWhile cond n sb (lexerAt (pre +:+ run) (String.length pre))
  = (sb +:+ run, lexerAt (pre +:+ run) (String.length (pre +:+ run))).
Proof.
  intros Hz Hrun Hn.
  pose proof (scanWhile_span cond pre run "" n sb Hz Hrun I Hn) as Hs.
  rewrite string_app_nil_r in Hs. by rewrite string_length_app.
Qed.

Lemma parser_nextToken_l p :
  l (parser_nextToken p) = (lexer_nextToken (l p)).2.
Proof. unfold parser_nextToken. destruct (lexer_nextToken (l p)). done. Qed.

(** The two tokens of [Sleep] followed by a run of digits. *)
Lemma Sleep_first_token rest :
  lexer_nextToken (newLexer ("Sleep " +:+ rest))
  = (mkToken tokenIdent "Sleep" 0, lexerAt ("Sleep " +:+ rest) 5).
Proof. vm_compute. reflexivity. Qed.

Lemma Sleep_second_token d ds :
  isDigit d = true -> allDigits ds = true ->
  lexer_nextToken (lexerAt ("Sleep " +:+ String d ds) 5)
  = (mkToken tokenNumber (String d ds) 6,
     lexerAt ("Sleep " +:+ String d ds)
       (String.length ("Sleep " +:+ String d ds))).
Proof.
  intros Hd Hds. unfold lexer_nextToken. rewrite nextTokenFrom_eq. cbv zeta.
  assert (skipWhitespace (lexerAt ("Sleep " +:+ String d ds) 5)
          = lexerAt ("Sleep " +:+ String d ds) 6) as ->.
  { unfold skipWhitespace.
    rewrite (scanWhile_span isWhitespace "Sleep" " " (String d ds)); try done.
    - destruct d as [[] [] [] [] [] [] [] []]; try done.
    - unfold lexFuel. simpl. lia. }
  assert (ch (lexerAt ("Sleep " +:+ String d ds) 6) = d) as Hch
    by apply (ch_lexerAt_mid "Sleep " d ds).
  rewrite Hch, Hd.
  rewrite !bool_decide_eq_false_2 by (intros ->; discriminate Hd).
  unfold readNumberOrDuration.
  rewrite (scanWhile_span_end isDigit "Sleep " (String d ds)); try done.
  - rewrite ch_lexerAt_end. reflexivity.
  - unfold allBytes. simpl. rewrite Hd. simpl. clear -Hds.
    induction ds as [|c ds IH]; [done|]. simpl in *.
    destruct (isDigit c); [by apply IH | done].
  - unfold lexFuel. cbn [input readPos lexerAt].
    rewrite string_length_app. simpl. lia.
Qed.

(** ** Sleep and its duration *)

Lemma leadingInt_allDigits s x v r :
  allDigits s = true -> leadingInt x s = Some (v, r) -> r = "".
Proof.
  revert x. induction s as [|c s IH]; intros x Hd; simpl in *.
  - by intros [= _ <-].
  - apply andb_true_iff in Hd as [Hc Hs]. rewrite Hc.
    repeat case_match; try done. by apply IH.
Qed.

Lemma leadingInt_length s x v r :
  leadingInt x s = Some (v, r) -> (String.length r <= String.length s)%nat.
Proof.
  revert x. induction s as [|c s IH]; intros x; simpl.
  - by intros [= _ <-].
  - repeat case_match; try done.
    + intros Hl%IH. lia.
    + by intros [= _ <-].
Qed.

Lemma splitUnit_length s u r :
  splitUnit s = (u, r) ->
  String.length s = (String.length u + String.length r)%nat.
Proof.
  revert u r. induction s as [|c s IH]; intros u r; simpl.
  - by intros [= <- <-].
  - case_match.
    + by intros [= <- <-].
    + destruct (splitUnit s) as [u' r']. intros [= <- <-].
      simpl. by rewrite (IH u' r' eq_refl).
Qed.

(** The loop of [time.ParseDuration] needs no more rounds than the string
    has bytes. *)
Lemma durationGroups_fuel n m d s :
  (String.length s <= n)%nat -> (String.length s <= m)%nat ->
  durationGroups n d s = durationGroups m d s.
Proof.
  revert m d s. induction n as [|n IH]; intros m d s Hn Hm;
    destruct s as [|c s]; try (by destruct m); [simpl in Hn; lia|].
  destruct m as [|m]; [simpl in Hm; lia|]. cbn [durationGroups].
  case_match; [reflexivity|].
  destruct (leadingInt 0 (String c s)) as [[v s1]|] eqn:Hl; [|reflexivity].
  apply leadingInt_length in Hl.
  destruct (startsWith "." s1); [reflexivity|].
  destruct (splitUnit s1) as [u s2] eqn:Hu. apply splitUnit_length in Hu.
  destruct (bool_decide (u = "")) eqn:Hne; [reflexivity|].
  apply bool_decide_eq_false in Hne.
  destruct (unitMap !! u) as [unit|]; [|reflexivity].
  repeat case_match; try reflexivity.
  apply IH; destruct u; simpl in *; try done; lia.
Qed.

(** A bare integer is no duration, except for the literal [0]. *)
Lemma ParseDuration_bare_integer digits :
  allDigits digits = true -> digits <> "0" -> ParseDuration digits = None.
Proof.
  intros Hd Hz. unfold ParseDuration.
  destruct digits as [|c s]; [reflexivity|].
  assert (isDigit c = true) as Hc by (simpl in Hd; destruct (isDigit c); done).
  replace (match String c s with
           | String "-"%char r => (true, r)
           | String "+"%char r => (false, r)
           | _ => (false, String c s)
           end) with (false, String c s)
    by (destruct c as [[] [] [] [] [] [] [] []]; try reflexivity; done).
  rewrite bool_decide_eq_false_2 by done.
  rewrite bool_decide_eq_false_2 by done.
  cbn [String.length durationGroups]. rewrite Hc, orb_true_r. cbn [negb].
  destruct (leadingInt 0 (String c s)) as [[v s1]|] eqn:Hl; [|reflexivity].
  apply leadingInt_allDigits in Hl; [|exact Hd]. subst s1. reflexivity.
Qed.

(** A Sleep whose argument is a bare integer other than [0] fails at the
    argument with the invalid-duration message. *)
Lemma Parse_sleep_bare_integer `{GoUnicode} digits :
  digits <> "" -> allDigits digits = true -> digits <> "0" ->
  Parse ("Sleep " +:+ digits)
  = (None, Some {| Position := 6; Message := msgInvalidDuration digits |}).
Proof.
  intros Hne Hd Hz. destruct digits as [|d ds]; [done|].
  assert (isDigit d = true /\ allDigits ds = true) as [Hd1 Hd2]
    by (simpl in Hd; by apply andb_true_iff in Hd).
  unfold Parse.
  set (p := newParser (newLexer ("Sleep " +:+ String d ds))).
  assert (curToken p = mkToken tokenIdent "Sleep" 0) as Hcur.
  { unfold p, newParser. rewrite parser_nextToken_cur, parser_nextToken_peek.
    cbn [l]. by rewrite Sleep_first_token. }
  assert (peekToken p = mkToken tokenNumber (String d ds) 6) as Hpeek.
  { unfold p, newParser. rewrite parser_nextToken_peek, parser_nextToken_l.
    cbn [l]. rewrite Sleep_first_token. cbn [snd].
    by rewrite Sleep_second_token. }
  assert (exists n, parseFuel ("Sleep " +:+ String d ds) = S n) as [n ->]
    by (unfold parseFuel; rewrite Nat.add_comm; by eexists).
  rewrite parseLoop_eq, Hcur. cbn [kind].
  rewrite bool_decide_eq_false_2 by done.
  unfold parseAction. rewrite Hcur. cbn [kind literal].
  rewrite bool_decide_eq_true_2 by done. cbn [negb].
  change (ToLower "Sleep") with "sleep".
  change (HasPrefix "sleep" "ctrl+") with false. cbv iota.
  rewrite bool_decide_eq_false_2 by done.
  rewrite bool_decide_eq_true_2 by done.
  unfold parseSleepAction. rewrite parser_nextToken_cur, Hpeek.
  cbn [isDurationOrNumber kind literal negb].
  change (bool_decide (tokenNumber = tokenDuration)
          || bool_decide (tokenNumber = tokenNumber)) with true.
  cbn [negb]. unfold parseDuration.
  rewrite ParseDuration_bare_integer by done.
  unfold errorAt. rewrite parser_nextToken_cur, Hpeek. reflexivity.
Qed.

(** C6, as the code has it.  [Sleep 500ms] parses to one Sleep action of
    500 milliseconds; a Sleep whose argument is a bare integer other than [0]
    fails with the invalid-duration error at the argument, while [Sleep 0]
    parses to a Sleep of zero duration; a Sleep without an argument fails
    with the missing-duration error; and [parseSleepAction] fails exactly when
    its argument token is neither a duration nor a number or fails duration
    parsing, with the matching message. *)
Theorem Parse_sleep `{GoUnicode} :
  Parse "Sleep 500ms"
    = (Some [mkAction ActionSleep "" "" (500 * Millisecond) 0 0 0], None)
  /\ (forall digits,
        digits <> "" -> allDigits digits = true -> digits <> "0" ->
        Parse ("Sleep " +:+ digits)
        = (None,
           Some {| Position := 6; Message := msgInvalidDuration digits |}))
  /\ Parse "Sleep 0" = (Some [mkAction ActionSleep "" "" 0 0 0 0], None)
  /\ Parse "Sleep"
     = (None,
        Some {| Position := 5; Message := msgExpectedDurationAfterSleep |})
  /\ (forall p,
        let q := parser_nextToken p in
        ((parseSleepAction p).1.2 <> None
         <-> isDurationOrNumber (curToken q) = false
             \/ parseDuration (literal (curToken q)) = None)
        /\ (isDurationOrNumber (curToken q) = false ->
            (parseSleepAction p).1.2
            = errorAt q msgExpectedDurationAfterSleep)
        /\ (isDurationOrNumber (curToken q) = true ->
            parseDuration (literal (curToken q)) = None ->
            (parseSleepAction p).1.2
            = errorAt q (msgInvalidDuration (literal (curToken q))))).
Proof.
  split_and!.
  - vm_compute. reflexivity.
  - apply Parse_sleep_bare_integer.
  - vm_compute. reflexivity.
  - vm_compute. reflexivity.
  - intros p q. unfold parseSleepAction. fold q.
    destruct (isDurationOrNumber (curToken q)) eqn:Hk; cbn [negb].
    + destruct (parseDuration (literal (curToken q))) eqn:Hd; cbn [fst snd].
      * split_and!; [|done|done]. split; [done|]. intros [?|?]; done.
      * split_and!; [|done|done]. split; [by right | done].
    + cbn [fst snd]. split_and!; [|done|done]. split; [by left | done].
Qed.

Lemma Parse_sleep_witness :
  "500" <> "" /\ allDigits "500" = true /\ "500" <> "0"
  /\ @Parse asciiOnly "Sleep 500"
     = (None,
        Some {| Position := 6;
                Message := @msgInvalidDuration asciiOnly "500" |}).
Proof.
  split_and!; [discriminate | reflexivity | discriminate |].
  apply (proj1 (proj2 (@Parse_sleep asciiOnly)) "500");
    [discriminate | reflexivity | discriminate].
Defined.

(** C6 as stated fails: the argument of [Sleep 0] is a bare integer with no
    unit, and the script parses, to a Sleep of zero duration. *)
Lemma Parse_sleep_bare_zero :
  @Parse asciiOnly "Sleep 0"
    = (Some [mkAction ActionSleep "" "" 0 0 0 0], None)
  /\ (@Parse asciiOnly "Sleep 0").2 = None.
Proof. split; vm_compute; reflexivity. Qed.

(** ** The two key tables *)

Lemma isAlphanumeric_ToLower `{GoUnicode} key :
  isAlphanumeric key = true -> String.length (ToLower key) = 1%nat.
Proof.
  unfold isAlphanumeric. case_bool_decide as Hlen; [|done]. cbn [negb].
  destruct key as [|c [|]]; try done. unfold byteAt. simpl. intros Hc.
  assert ((byte c <? 128)%nat = true) as Hlt.
  { unfold inRange in Hc. apply Nat.ltb_lt.
    repeat (apply orb_true_iff in Hc as [Hc|Hc]);
      apply andb_true_iff in Hc as [_ Hc]; apply Nat.leb_le in Hc; lia. }
  unfold ToLower, isASCII. simpl. rewrite Hlt. reflexivity.
Qed.

(** Under every casing the eleven names both tables hold are accepted by the
    parser and have a key code. *)
Lemma key_tables_agree `{GoUnicode} key :
  ToLower key ∈ ["enter"; "tab"; "escape"; "backspace"; "delete"; "up";
                 "down"; "left"; "right"; "home"; "end"] ->
  isValidKey key = true /\ (KeyToKeyCode key).2 = None.
Proof.
  intros Hk. unfold isValidKey, KeyToKeyCode.
  destruct (isAlphanumeric key) eqn:Ha.
  { apply isAlphanumeric_ToLower in Ha.
    repeat (apply elem_of_cons in Hk as [Hk | Hk];
            [rewrite Hk in Ha; discriminate Ha|]).
    by apply elem_of_nil in Hk. }
  repeat (apply elem_of_cons in Hk as [-> | Hk]; [split; reflexivity|]).
  by apply elem_of_nil in Hk.
Qed.

(** C2, where the code departs from it: under every casing, [Space], [PageUp]
    and [PageDown] are valid keys for the parser and have no key code. *)
Theorem key_tables_disagree `{GoUnicode} (key : string) :
  ToLower key ∈ ["space"; "pageup"; "pagedown"] ->
  isValidKey key = true
  /\ KeyToKeyCode key = ("", Some (errKeyNotRecognized key)).
Proof.
  intros Hk. unfold isValidKey, KeyToKeyCode.
  destruct (isAlphanumeric key) eqn:Ha.
  { apply isAlphanumeric_ToLower in Ha.
    repeat (apply elem_of_cons in Hk as [Hk | Hk];
            [rewrite Hk in Ha; discriminate Ha|]).
    by apply elem_of_nil in Hk. }
  repeat (apply elem_of_cons in Hk as [-> | Hk]; [split; reflexivity|]).
  by apply elem_of_nil in Hk.
Qed.

Lemma key_tables_disagree_witness :
  @ToLower asciiOnly "Space" ∈ ["space"; "pageup"; "pagedown"]
  /\ @isValidKey asciiOnly "Space" = true
  /\ @KeyToKeyCode asciiOnly "Space" = ("", Some (errKeyNotRecognized "Space")).
Proof.
  split; [apply list_elem_of_here|].
  apply (@key_tables_disagree asciiOnly "Space"). apply list_elem_of_here.
Defined.

(** ** Typing text *)

Lemma sendKeypress_calls `{GoUnicode} `{Externals} key w oe w' :
  sendKeypress key w = (oe, w') ->
  now w' = now w /\ intervalStopChan w' = intervalStopChan w
  /\ (w' = w \/ calls w' = (calls w ++ [keyEventOf key])%list).
Proof.
  unfold sendKeypress, keyEventOf, sendCtrlKeypress, isCtrlKey, chromedpRun.
  intros Hs.
  destruct (HasPrefix (ToLower key) "ctrl+"
            && bool_decide (String.length (ToLower key) = 6%nat)) eqn:Hc.
  - apply andb_true_iff in Hc as [Hp Hl]. rewrite Hp, Hl in Hs.
    cbn [negb orb] in Hs. simplify_eq/=. split_and!; [done | done | by right].
  - destruct (KeyToKeyCode key) as [code [err|]]; simplify_eq/=;
      split_and!; try done; [by left | by right].
Qed.

Lemma sendKeypress_ok `{GoUnicode} `{Externals} key w w' :
  sendKeypress key w = (None, w') ->
  now w' = now w /\ intervalStopChan w' = intervalStopChan w
  /\ calls w' = (calls w ++ [keyEventOf key])%list.
Proof.
  unfold sendKeypress, keyEventOf, sendCtrlKeypress, isCtrlKey, chromedpRun.
  intros Hs.
  destruct (HasPrefix (ToLower key) "ctrl+"
            && bool_decide (String.length (ToLower key) = 6%nat)) eqn:Hc.
  - apply andb_true_iff in Hc as [Hp Hl]. rewrite Hp, Hl in Hs.
    cbn [negb orb] in Hs. by simplify_eq/=.
  - destruct (KeyToKeyCode key) as [code [err|]]; by simplify_eq/=.
Qed.

Lemma typeChars_cons `{GoUnicode} `{Externals} ctx speed char rest w :
  typeChars ctx speed (char :: rest) w =
  if ctxDone ctx w then (Some errContext, w)
  else
    match sendKeypress char w with
    | (Some err, w) => (Some (errWrap "send character" err), stopInterval w)
    | (None, w) =>
        if (0 <? speed)%Z then
          match waitFor ctx speed w with
          | (Some err, w) => (Some err, w)
          | (None, w) => typeChars ctx speed rest w
          end
        else typeChars ctx speed rest w
    end.
Proof. reflexivity. Qed.

Lemma keyRounds_S `{GoUnicode} `{Externals} ctx key rounds w :
  keyRounds ctx key (S rounds) w =
  if ctxDone ctx w then (Some errContext, w)
  else
    match sendKeypress key w with
    | (Some err, w) => (Some (errWrap "send key" err), stopInterval w)
    | (None, w) => keyRounds ctx key rounds w
    end.
Proof. reflexivity. Qed.

Lemma rangeString_ascii s :
  isASCII s = true -> rangeString 0 s = map str (list_ascii_of_string s).
Proof.
  unfold isASCII. induction s as [|c s IH]; [done|]. simpl.
  intros [Hc Hs]%andb_true_iff. unfold decodeRune. rewrite Hc. simpl.
  by rewrite IH.
Qed.

Lemma alnumByte_ascii c : alnumByte c = true -> (byte c <? 128)%nat = true.
Proof. destruct c as [[] [] [] [] [] [] [] []]; vm_compute; done. Qed.

Lemma HasPrefix_single x : HasPrefix (str x) "ctrl+" = false.
Proof.
  unfold HasPrefix, str.
  change (String.prefix "ctrl+" (String x ""))
    with (if ascii_dec "c" x then String.prefix "trl+" "" else false).
  destruct (ascii_dec "c" x); reflexivity.
Qed.

Lemma sendKeypress_alnum `{GoUnicode} c w :
  alnumByte c = true ->
  @sendKeypress _ reliable (str c) w
  = (None, mkWorld (calls w ++ [mkKeyEvent (str c) false]) (now w)
             (intervalStopChan w)).
Proof.
  intros Hc. unfold sendKeypress, isCtrlKey, KeyToKeyCode, isAlphanumeric.
  assert (ToLower (str c) = str (lowerByte c)) as ->.
  { unfold ToLower, isASCII. simpl. by rewrite (alnumByte_ascii c Hc). }
  change (byteAt (str c) 0) with c. fold (alnumByte c). rewrite Hc.
  rewrite HasPrefix_single. reflexivity.
Qed.

(** Where the lookup succeeds the claim holds: a text of ASCII letters and
    digits is sent to a renderer that never fails byte by byte, in order. *)
Lemma executeTypeAction_alnum `{GoUnicode} text speed w :
  allBytes alnumByte text = true ->
  exists w',
    @executeTypeAction _ reliable None
      (mkAction ActionType text "" 0 speed 0 0) w = (None, w')
    /\ calls w'
       = (calls w
          ++ map (fun c => mkKeyEvent (str c) false)
               (list_ascii_of_string text))%list.
Proof.
  intros Hall. unfold executeTypeAction. cbn [Speed Text Delay].
  assert (isASCII text = true) as Hasc.
  { unfold isASCII, allBytes in *. rewrite forallb_forall in *.
    intros c Hc. apply alnumByte_ascii, Hall, Hc. }
  rewrite rangeString_ascii by done. unfold allBytes in Hall.
  assert (exists w',
    @typeChars _ reliable None speed (map str (list_ascii_of_string text)) w
      = (None, w')
    /\ calls w' = (calls w ++ map (fun c => mkKeyEvent (str c) false)
                               (list_ascii_of_string text))%list)
    as (w' & -> & Hcalls).
  { clear Hasc. revert w.
    induction (list_ascii_of_string text) as [|c cs IH]; intros w.
    - exists w. by rewrite app_nil_r.
    - simpl in Hall. apply andb_true_iff in Hall as [Hc Hcs].
      cbn [map]. rewrite typeChars_cons. change (ctxDone None w) with false.
      cbv iota. rewrite sendKeypress_alnum by done.
      destruct (0 <? speed)%Z.
      + unfold waitFor.
        destruct (IH Hcs (setNow (now w + Z.max speed 0)
          (mkWorld (calls w ++ [mkKeyEvent (str c) false]) (now w)
             (intervalStopChan w)))) as (w' & Hw & Hc').
        exists w'. cbn [now] in Hw |- *. split; [exact Hw|].
        rewrite Hc'. cbn [calls setNow]. by rewrite <- app_assoc.
      + destruct (IH Hcs
          (mkWorld (calls w ++ [mkKeyEvent (str c) false]) (now w)
             (intervalStopChan w))) as (w' & Hw & Hc').
        exists w'. split; [exact Hw|].
        rewrite Hc'. cbn [calls]. by rewrite <- app_assoc. }
  exists w'. split; [|exact Hcalls]. reflexivity.
Qed.

(** C1, where the code departs from it: the key-code lookup refuses the
    space character and punctuation such as ['-'], so a Type action whose
    text is a space ends in an error under every context and renderer without
    a single renderer call; typing [ls -la] on a renderer that never fails
    sends [l] and [s] and stops at the space. *)
Theorem type_space_not_dispatched `{GoUnicode} :
  KeyToKeyCode " " = ("", Some (errKeyNotRecognized " "))
  /\ KeyToKeyCode "-" = ("", Some (errKeyNotRecognized "-"))
  /\ (forall (E : Externals) ctx speed delay w,
        let r := executeTypeAction ctx
                   (mkAction ActionType " " "" 0 speed delay 0) w in
        r.1 <> None /\ calls r.2 = calls w)
  /\ @executeTypeAction _ reliable None
       (mkAction ActionType "ls -la" "" 0 (50 * Millisecond) 0 0)
       (mkWorld [] 0 (Some false))
     = (Some (errWrap "send character"
                (errWrap "lookup key code" (errKeyNotRecognized " "))),
        mkWorld [mkKeyEvent "l" false; mkKeyEvent "s" false]
          (100 * Millisecond) (Some true)).
Proof.
  split_and!; try (vm_compute; reflexivity).
  intros E ctx speed delay w. unfold executeTypeAction. simpl.
  destruct (ctxDone ctx w); simpl; done.
Qed.

(** ** The renderer calls never shrink *)

Lemma waitFor_calls `{Externals} ctx d w :
  calls (waitFor ctx d w).2 = calls w
  /\ intervalStopChan (waitFor ctx d w).2 = intervalStopChan w.
Proof. unfold waitFor. repeat case_match; done. Qed.

Lemma postDelay_calls `{Externals} ctx d w :
  calls (postDelay ctx d w).2 = calls w.
Proof. unfold postDelay. case_match; [apply waitFor_calls | done]. Qed.

Lemma sendKeypress_grows `{GoUnicode} `{Externals} key w oe w' :
  sendKeypress key w = (oe, w') -> calls w `prefix_of` calls w'.
Proof.
  intros Hs. apply sendKeypress_calls in Hs as (_ & _ & [-> | ->]);
    [done | by apply prefix_app_r].
Qed.

Lemma typeChars_grows `{GoUnicode} `{Externals} ctx speed chars w :
  calls w `prefix_of` calls (typeChars ctx speed chars w).2.
Proof.
  revert w. induction chars as [|char rest IH]; intros w; simpl; [done|].
  destruct (ctxDone ctx w); [done|].
  destruct (sendKeypress char w) as [[err|] w1] eqn:Hs;
    apply sendKeypress_grows in Hs; [done|].
  destruct (0 <? speed)%Z; [|by etrans].
  pose proof (waitFor_calls ctx speed w1) as [Hw _].
  destruct (waitFor ctx speed w1) as [[err|] w2]; simpl in *.
  - by rewrite Hw.
  - etrans; [exact Hs|]. rewrite <- Hw. apply IH.
Qed.

(** The calls of the loop of [executeKeyAction]: the key's event, once per
    completed round, never more than [rounds] times, and exactly that often
    when the loop ends without an error. *)
Lemma keyRounds_calls `{GoUnicode} `{Externals} ctx key rounds w oe w' :
  keyRounds ctx key rounds w = (oe, w') ->
  exists k, (k <= rounds)%nat
    /\ calls w' = (calls w ++ replicate k (keyEventOf key))%list
    /\ (oe = None -> k = rounds /\ now w' = now w).
Proof.
  revert w. induction rounds as [|n IH]; intros w; simpl.
  - intros [= <- <-]. exists 0%nat. rewrite app_nil_r. done.
  - destruct (ctxDone ctx w).
    { intros [= <- <-]. exists 0%nat. rewrite app_nil_r.
      split_and!; [lia | done | done]. }
    destruct (sendKeypress key w) as [[err|] w1] eqn:Hs.
    + intros [= <- <-].
      apply sendKeypress_calls in Hs as (_ & _ & [-> | Hc]).
      * exists 0%nat. rewrite app_nil_r. split_and!; [lia | done | done].
      * exists 1%nat. split_and!; [lia | done | done].
    + intros Hr. apply sendKeypress_ok in Hs as (Hnow & _ & Hc).
      apply IH in Hr as (k & Hk & Hcalls & Hok).
      exists (S k). split_and!; [lia | |].
      * rewrite Hcalls, Hc, <- app_assoc. reflexivity.
      * intros Hoe. destruct (Hok Hoe) as [-> ->]. done.
Qed.

(** C10.  A Key action sends its key's event to the renderer at most
    [max(Repeat, 1)] times, and exactly that many times when its loop is not
    cut short by a cancellation or a failed send, in particular when the
    action ends without an error; with [Repeat <= 0] that is exactly once. *)
Theorem executeKeyAction_dispatches `{GoUnicode} `{Externals}
    (ctx : context) (action : Action) (w : world)
    (oe : option error) (w' : world) :
  executeKeyAction ctx action w = (oe, w') ->
  exists k,
    (k <= Z.to_nat (Z.max (Repeat action) 1))%nat
    /\ calls w' = (calls w ++ replicate k (keyEventOf (Key action)))%list
    /\ (oe = None
        \/ (keyRounds ctx (Key action)
              (Z.to_nat (Z.max (Repeat action) 1)) w).1 = None ->
        k = Z.to_nat (Z.max (Repeat action) 1))
    /\ (oe = None -> (Repeat action <= 0)%Z ->
        calls w' = (calls w ++ [keyEventOf (Key action)])%list).
Proof.
  unfold executeKeyAction. intros He.
  assert (Z.to_nat (if (Repeat action <=? 0)%Z then 1%Z else Repeat action)
          = Z.to_nat (Z.max (Repeat action) 1)) as Hn.
  { destruct (Z.leb_spec (Repeat action) 0); f_equal; lia. }
  rewrite Hn in He.
  destruct (keyRounds ctx (Key action) _ w) as [[err|] w1] eqn:Hr;
    apply keyRounds_calls in Hr as (k & Hk & Hcalls & Hok).
  - simplify_eq. exists k. split_and!; [done | done | | done].
    intros [?|?]; done.
  - destruct (Hok eq_refl) as [-> _].
    pose proof (postDelay_calls ctx (Delay action) w1) as Hd.
    rewrite He in Hd. simpl in Hd.
    exists (Z.to_nat (Z.max (Repeat action) 1)).
    split_and!; [done | congruence | done |].
    intros _ Hle. rewrite Hd, Hcalls.
    replace (Z.max (Repeat action) 1) with 1%Z by lia. reflexivity.
Qed.

Lemma executeKeyAction_dispatches_witness :
  @executeKeyAction asciiOnly reliable None
    (mkAction ActionKey "" "Enter" 0 0 0 0) (mkWorld [] 0 None)
  = (None, mkWorld [mkKeyEvent "Enter" false] 0 None)
  /\ exists k,
       (k <= 1)%nat
       /\ [mkKeyEvent "Enter" false]
          = replicate k (@keyEventOf asciiOnly "Enter").
Proof.
  split; [vm_compute; reflexivity|].
  destruct (@executeKeyAction_dispatches asciiOnly reliable None
              (mkAction ActionKey "" "Enter" 0 0 0 0) (mkWorld [] 0 None)
              None (mkWorld [mkKeyEvent "Enter" false] 0 None))
    as (k & Hk & Hcalls & _); [vm_compute; reflexivity|].
  exists k. split; [exact Hk | exact Hcalls].
Defined.

(** ** Cancellation during a wait *)

Lemma cutAt_same c w wEnd :
  w = wEnd -> (now wEnd <= c)%Z -> cutAt c (None, w) wEnd.
Proof. intros -> Hle. by left. Qed.

Lemma cutAt_cancelled c w2 wEnd :
  calls w2 `prefix_of` calls wEnd -> now w2 = c ->
  cutAt c (Some errContext, w2) wEnd.
Proof. intros Hp Hn. right. by exists w2. Qed.

Lemma waitFor_cut `{Externals} c d w wEnd :
  (now w <= c)%Z -> waitFor None d w = (None, wEnd) ->
  cutAt c (waitFor (Some c) d w) wEnd.
Proof.
  intros Hle [= <-]. unfold waitFor.
  replace (Z.max c (now w)) with c by lia.
  destruct (Z.ltb_spec c (now w + Z.max d 0)).
  { by apply cutAt_cancelled. }
  destruct (Z.ltb_spec (now w + Z.max d 0) c).
  { apply cutAt_same; [done | simpl; lia]. }
  destruct (timerWinsTie _).
  - apply cutAt_same; [done | simpl; lia].
  - apply cutAt_cancelled; [done | simpl; lia].
Qed.

Arguments waitFor : simpl never.
Arguments sendKeypress : simpl never.
Arguments ctxDone : simpl never.

Lemma postDelay_cut `{Externals} c d w wEnd :
  (now w <= c)%Z -> postDelay None d w = (None, wEnd) ->
  cutAt c (postDelay (Some c) d w) wEnd.
Proof.
  unfold postDelay. intros Hle. destruct (0 <? d)%Z.
  - by apply waitFor_cut.
  - intros [= <-]. by apply cutAt_same.
Qed.

Lemma ctxDone_at c w :
  (now w <= c)%Z -> ctxDone (Some c) w = true -> now w = c.
Proof. unfold ctxDone. intros Hle Hd%Z.leb_le. lia. Qed.

Lemma typeChars_cut `{GoUnicode} `{Externals} c speed chars w wEnd :
  (now w <= c)%Z -> typeChars None speed chars w = (None, wEnd) ->
  cutAt c (typeChars (Some c) speed chars w) wEnd.
Proof.
  revert w. induction chars as [|char rest IH]; intros w Hle.
  { intros [= <-]. by apply cutAt_same. }
  pose proof (typeChars_grows None speed (char :: rest) w) as Hgrow.
  rewrite !typeChars_cons. rewrite typeChars_cons in Hgrow.
  change (ctxDone None w) with false in *. cbv iota in *.
  intros Hrun. rewrite Hrun in Hgrow. cbn [snd] in Hgrow.
  destruct (ctxDone (Some c) w) eqn:Hdone.
  { apply cutAt_cancelled; [done | by apply ctxDone_at]. }
  destruct (sendKeypress char w) as [[err|] w1] eqn:Hs; [done|].
  apply sendKeypress_ok in Hs as (Hnow & _ & _).
  destruct (0 <? speed)%Z; [|apply IH; [lia | done]].
  destruct (waitFor None speed w1) as [[err|] w2] eqn:Hw; [done|].
  destruct (waitFor_cut c speed w1 w2 ltac:(lia) Hw)
    as [[-> Hle2] | (w2' & -> & Hpre & Hn)].
  - by apply IH.
  - apply cutAt_cancelled; [|done]. etrans; [exact Hpre|].
    pose proof (typeChars_grows None speed rest w2) as Hg.
    by rewrite Hrun in Hg.
Qed.

Lemma keyRounds_cut `{GoUnicode} `{Externals} c key rounds w wEnd :
  (now w <= c)%Z -> keyRounds None key rounds w = (None, wEnd) ->
  cutAt c (keyRounds (Some c) key rounds w) wEnd.
Proof.
  revert w. induction rounds as [|n IH]; intros w Hle.
  { intros [= <-]. by apply cutAt_same. }
  rewrite !keyRounds_S. change (ctxDone None w) with false. cbv iota.
  intros Hrun.
  destruct (sendKeypress key w) as [[err|] w1] eqn:Hs; [done|].
  destruct (ctxDone (Some c) w) eqn:Hdone.
  { apply cutAt_cancelled; [|by apply ctxDone_at].
    apply sendKeypress_grows in Hs. etrans; [exact Hs|].
    apply keyRounds_calls in Hrun as (k & _ & -> & _). by apply prefix_app_r. }
  apply sendKeypress_ok in Hs as (Hnow & _ & _). apply IH; [lia | done].
Qed.

(** An action that would run to [wEnd] if its context were never cancelled,
    run under a context cancelled at [c], no earlier than its start. *)
Lemma executeSingleAction_cut `{GoUnicode} `{Externals} c action w wEnd :
  (now w <= c)%Z -> executeSingleAction None action w = (None, wEnd) ->
  cutAt c (executeSingleAction (Some c) action w) wEnd.
Proof.
  intros Hle. unfold executeSingleAction. destruct (Kind action).
  - unfold executeTypeAction.
    destruct (typeChars None _ _ w) as [[err|] wm] eqn:Ht; [done|]. intros Hd.
    destruct (typeChars_cut c _ _ w wm Hle Ht)
      as [[-> Hle2] | (w2 & -> & Hpre & Hn)].
    + by apply postDelay_cut.
    + apply cutAt_cancelled; [|done]. etrans; [exact Hpre|].
      pose proof (postDelay_calls None (Delay action) wm) as Hc.
      rewrite Hd in Hc. simpl in Hc. by rewrite Hc.
  - unfold executeSleepAction. by apply waitFor_cut.
  - unfold executeKeyAction.
    destruct (keyRounds None _ _ w) as [[err|] wm] eqn:Ht; [done|]. intros Hd.
    destruct (keyRounds_cut c _ _ w wm Hle Ht)
      as [[-> Hle2] | (w2 & -> & Hpre & Hn)].
    + by apply postDelay_cut.
    + apply cutAt_cancelled; [|done]. etrans; [exact Hpre|].
      pose proof (postDelay_calls None (Delay action) wm) as Hc.
      rewrite Hd in Hc. simpl in Hc. by rewrite Hc.
  - intros Hrun. rewrite Hrun. apply cutAt_same; [done|].
    unfold executeCtrlAction, sendCtrlKeypress, chromedpRun in Hrun.
    repeat case_match; simplify_eq/=; done.
Qed.

Lemma actionsLoop_app `{GoUnicode} `{Externals} ctx pre rest w w1 :
  actionsLoop ctx pre w = (None, w1) ->
  actionsLoop ctx (pre ++ rest)%list w = actionsLoop ctx rest w1.
Proof.
  revert w. induction pre as [|a pre IH]; intros w; simpl.
  { by intros [= <-]. }
  destruct (executeSingleAction ctx a w) as [[err|] w']; [done|]. apply IH.
Qed.

Lemma actionsLoop_grows `{GoUnicode} `{Externals} ctx actions w w1 :
  actionsLoop ctx actions w = (None, w1) -> calls w `prefix_of` calls w1.
Proof.
  revert w. induction actions as [|a rest IH]; intros w; simpl.
  { by intros [= <-]. }
  destruct (executeSingleAction ctx a w) as [[err|] w'] eqn:Ha; [done|].
  intros Hr. etrans; [|by eapply IH].
  unfold executeSingleAction, executeTypeAction, executeSleepAction,
    executeKeyAction, executeCtrlAction in Ha.
  destruct (Kind a).
  - pose proof (typeChars_grows ctx (Speed a) (rangeString 0 (Text a)) w) as Hg.
    destruct (typeChars _ _ _ w) as [[err|] wm]; [done|].
    pose proof (postDelay_calls ctx (Delay a) wm) as Hc.
    rewrite Ha in Hc. simpl in *. by rewrite Hc.
  - pose proof (waitFor_calls ctx (Duration a) w) as [Hc _].
    rewrite Ha in Hc. simpl in Hc. by rewrite Hc.
  - destruct (keyRounds _ _ _ w) as [[err|] wm] eqn:Hk; [done|].
    apply keyRounds_calls in Hk as (k & _ & Hk & _).
    pose proof (postDelay_calls ctx (Delay a) wm) as Hc.
    rewrite Ha in Hc. simpl in *. rewrite Hc, Hk. by apply prefix_app_r.
  - unfold sendCtrlKeypress, chromedpRun in Ha.
    repeat case_match; simplify_eq/=; by apply prefix_app_r.
Qed.

(** C9.  Let the actions before [action] have run to completion, in state
    [w1], and let [action] be one that would run to [wEnd] were the context
    never cancelled.  If the context is cancelled at an instant [c] from the
    start of [action] on and before the instant [action] would end (the clock
    only moves in waits, so [c] falls in one of its waits), then
    [executeActions] returns the context's error at [c], and the renderer
    calls made are those of the earlier actions followed by an initial part
    of the calls of [action]: none comes from a later action. *)
Theorem executeActions_cancelled `{GoUnicode} `{Externals}
    (pre post : list Action) (action : Action) (keypresses : list string)
    (delays : list Z) (c : Z) (w0 w1 wEnd : world) :
  actionsLoop (Some c) pre w0 = (None, w1) ->
  executeSingleAction None action w1 = (None, wEnd) ->
  (now w1 <= c < now wEnd)%Z ->
  exists w2,
    executeActions (Some c)
      (mkConfig (pre ++ action :: post) keypresses delays) w0
    = (Some errContext, w2)
    /\ calls w0 `prefix_of` calls w1
    /\ calls w1 `prefix_of` calls w2
    /\ calls w2 `prefix_of` calls wEnd
    /\ now w2 = c.
Proof.
  intros Hpre Hact [Hle Hlt].
  destruct (executeSingleAction_cut c action w1 wEnd Hle Hact)
    as [[_ Hle2] | (w2 & Hreal & Hpref & Hn)]; [lia|].
  exists w2. split_and!; try done.
  - unfold executeActions. cbn [Actions].
    replace (0 <? length (pre ++ action :: post))%nat with true
      by (symmetry; apply Nat.ltb_lt; rewrite length_app; simpl; lia).
    cbn [negb]. rewrite (actionsLoop_app _ _ _ _ _ Hpre). simpl.
    by rewrite Hreal.
  - by eapply actionsLoop_grows.
  - assert (actionsLoop (Some c) [action] w1 = (Some errContext, w2)) as Hone
      by (simpl; by rewrite Hreal).
    clear -Hreal.
    unfold executeSingleAction, executeTypeAction, executeSleepAction,
      executeKeyAction, executeCtrlAction in Hreal.
    destruct (Kind action).
    + pose proof (typeChars_grows (Some c) (Speed action)
                    (rangeString 0 (Text action)) w1) as Hg.
      destruct (typeChars _ _ _ w1) as [[err|] wm]; [by simplify_eq|].
      pose proof (postDelay_calls (Some c) (Delay action) wm) as Hc.
      rewrite Hreal in Hc. simpl in *. by rewrite Hc.
    + pose proof (waitFor_calls (Some c) (Duration action) w1) as [Hc _].
      rewrite Hreal in Hc. simpl in Hc. by rewrite Hc.
    + destruct (keyRounds _ _ _ w1) as [[err|] wm] eqn:Hk.
      * apply keyRounds_calls in Hk as (k & _ & Hk & _). simplify_eq.
        rewrite Hk. by apply prefix_app_r.
      * apply keyRounds_calls in Hk as (k & _ & Hk & _).
        pose proof (postDelay_calls (Some c) (Delay action) wm) as Hc.
        rewrite Hreal in Hc. simpl in *. rewrite Hc, Hk. by apply prefix_app_r.
    + unfold sendCtrlKeypress, chromedpRun in Hreal.
      repeat case_match; simplify_eq/=.
Qed.

(** The scenario of the specification: a context cancelled 400 ms into the
    one-second Sleep that opens the script. *)
Lemma executeActions_cancelled_witness :
  actionsLoop (H := asciiOnly) (H0 := reliable)
    (Some (400 * Millisecond)%Z) [] (mkWorld [] 0 (Some false))
  = (None, mkWorld [] 0 (Some false))
  /\ executeSingleAction (H := asciiOnly) (H0 := reliable) None
       (mkAction ActionSleep "" "" Second 0 0 0) (mkWorld [] 0 (Some false))
     = (None, mkWorld [] Second (Some false))
  /\ (0 <= 400 * Millisecond < Second)%Z
  /\ exists w2,
       executeActions (H := asciiOnly) (H0 := reliable)
         (Some (400 * Millisecond)%Z)
         (mkConfig
            [mkAction ActionSleep "" "" Second 0 0 0;
             mkAction ActionType "ls -la" "" 0 (50 * Millisecond) 0 0;
             mkAction ActionKey "" "Enter" 0 0 0 1;
             mkAction ActionSleep "" "" (500 * Millisecond) 0 0 0] [] [])
         (mkWorld [] 0 (Some false))
       = (Some errContext, w2)
       /\ calls w2 `prefix_of` []
       /\ now w2 = (400 * Millisecond)%Z.
Proof.
  split; [reflexivity|]. split; [reflexivity|].
  split; [unfold Second, Millisecond, Microsecond, Nanosecond; lia|].
  destruct (@executeActions_cancelled asciiOnly reliable []
              [mkAction ActionType "ls -la" "" 0 (50 * Millisecond) 0 0;
               mkAction ActionKey "" "Enter" 0 0 0 1;
               mkAction ActionSleep "" "" (500 * Millisecond) 0 0 0]
              (mkAction ActionSleep "" "" Second 0 0 0) [] []
              (400 * Millisecond)%Z
              (mkWorld [] 0 (Some false)) (mkWorld [] 0 (Some false))
              (mkWorld [] Second (Some false)))
    as (w2 & Hrun & _ & _ & Hcalls & Hnow);
    [reflexivity | reflexivity
    | unfold Second, Millisecond, Microsecond, Nanosecond; simpl; lia |].
  exists w2. split; [exact Hrun|]. split; [exact Hcalls | exact Hnow].
Defined.

Lemma Parse_whitespace_only_witness :
  forallb isWhitespace
    (list_ascii_of_string
       (String " " (String (ascii_of_nat 9) (String (ascii_of_nat 10) "  "))))
  = true
  /\ @Parse asciiOnly
       (String " " (String (ascii_of_nat 9) (String (ascii_of_nat 10) "  ")))
     = (Some [], None).
Proof.
  split; [reflexivity|].
  apply (@Parse_whitespace_only asciiOnly). reflexivity.
Defined.

(** ** The cases of the repository's test tables *)

(** [TestParse] and [TestParseError] of package [script], on the model. *)
Example Parse_test_type `{GoUnicode} :
  Parse "Type 'hello'"
    = (Some [mkAction ActionType "hello" "" 0 (50 * Millisecond) 0 0], None)
  /\ Parse "Type@30ms 'hello'"
     = (Some [mkAction ActionType "hello" "" 0 (30 * Millisecond) 0 0], None)
  /\ Parse "Type@1s 'hello'"
     = (Some [mkAction ActionType "hello" "" 0 Second 0 0], None)
  /\ Parse "Type 'ls -la'"
     = (Some [mkAction ActionType "ls -la" "" 0 (50 * Millisecond) 0 0], None).
Proof. split_and!; vm_compute; reflexivity. Qed.

Example Parse_test_key `{GoUnicode} :
  Parse "tab" = (Some [mkAction ActionKey "" "tab" 0 0 0 1], None)
  /\ Parse "Enter 10" = (Some [mkAction ActionKey "" "Enter" 0 0 0 10], None)
  /\ Parse "Enter@200ms"
     = (Some [mkAction ActionKey "" "Enter" 0 0 (200 * Millisecond) 1], None)
  /\ Parse "Down@500ms 3"
     = (Some [mkAction ActionKey "" "Down" 0 0 (500 * Millisecond) 3], None)
  /\ Parse "ctrl+l" = (Some [mkAction ActionCtrl "" "l" 0 0 0 0], None)
  /\ Parse "Ctrl+Z" = (Some [mkAction ActionCtrl "" "z" 0 0 0 0], None).
Proof. split_and!; vm_compute; reflexivity. Qed.

Example Parse_test_script `{GoUnicode} :
  Parse "Sleep 1s Type 'ls -la' Enter Sleep 500ms"
  = (Some [mkAction ActionSleep "" "" Second 0 0 0;
           mkAction ActionType "ls -la" "" 0 (50 * Millisecond) 0 0;
           mkAction ActionKey "" "Enter" 0 0 0 1;
           mkAction ActionSleep "" "" (500 * Millisecond) 0 0 0], None).
Proof. vm_compute. reflexivity. Qed.

Example Parse_test_errors `{GoUnicode} :
  Parse "Type hello"
    = (None, Some {| Position := 5; Message := msgExpectedString |})
  /\ Parse "Foo"
     = (None, Some {| Position := 0; Message := msgUnknownKey "Foo" |})
  /\ Parse "Type 'test' Foo"
     = (None, Some {| Position := 12; Message := msgUnknownKey "Foo" |})
  /\ Parse "Sleep 500x"
     = (None, Some {| Position := 6; Message := msgInvalidDuration "500" |})
  /\ Parse "Type@ 'hello'"
     = (None, Some {| Position := 6; Message := msgExpectedDurationAfterAt |}).
Proof. split_and!; vm_compute; reflexivity. Qed.

(** [TestKeyToKeyCode_*] of package [input], on the model. *)
Example KeyToKeyCode_test `{GoUnicode} :
  KeyToKeyCode "a" = ("a", None)
  /\ KeyToKeyCode "5" = ("5", None)
  /\ KeyToKeyCode "Up" = ("ArrowUp", None)
  /\ KeyToKeyCode "enter" = ("Enter", None)
  /\ KeyToKeyCode "Ctrl+C" = ("c", None)
  /\ KeyToKeyCode "NotAKey" = ("", Some (errKeyNotRecognized "NotAKey")).
Proof. split_and!; vm_compute; reflexivity. Qed.
